(** * exvis: LP / MPS readers, the variable-constraint model and its
      projection to a co-occurrence graph

    A shallow embedding of [src/exvis/visualize.py].

    - Python [str] values are [string]s whose characters are the code
      points 0..255; the character classes ([str.isspace], [str.isdigit],
      [str.isalpha]) and [str.lower] follow CPython's tables on that range.
    - Python objects with identity ([Variable], [Constraint]) live in an
      object store and are referred to by their address, so that two
      references to one object are visibly the same reference.
    - Python [dict]s are insertion-ordered association lists with unique
      keys, since the code iterates over them.
    - A raised exception is the [Raise] case of [result]. *)

From Stdlib Require Import Ascii String.
From stdpp Require Import base list strings.

Local Open Scope string_scope.
Local Open Scope list_scope.
Local Open Scope nat_scope.

(** ** Python exceptions *)

Inductive exn : Set := IndexError | KeyError | ValueError.

Inductive result (A : Type) : Type :=
| Ok (a : A)
| Raise (e : exn).
Arguments Ok {A} a.
Arguments Raise {A} e.

(** Sequencing: an exception ends the computation. *)
#[global] Instance result_bind : MBind result := λ A B k r,
  match r with
  | Ok a => k a
  | Raise e => Raise e
  end.

(** ** Characters *)

Definition ord (c : ascii) : nat := nat_of_ascii c.

Definition between (lo hi n : nat) : bool := (lo <=? n) && (n <=? hi).

(** [str.isspace] on one character. *)
Definition isspace (c : ascii) : bool :=
  let n := ord c in
  between 9 13 n || between 28 32 n || (n =? 133) || (n =? 160).

(** [str.isdigit] on one character. *)
Definition isdigit (c : ascii) : bool :=
  let n := ord c in
  between 48 57 n || (n =? 178) || (n =? 179) || (n =? 185).

(** [str.isalpha] on one character. *)
Definition isalpha (c : ascii) : bool :=
  let n := ord c in
  between 65 90 n || between 97 122 n
  || (n =? 170) || (n =? 181) || (n =? 186)
  || between 192 214 n || between 216 246 n || between 248 255 n.

(** [str.lower] on one character. *)
Definition lower_char (c : ascii) : ascii :=
  let n := ord c in
  if between 65 90 n || between 192 214 n || between 216 222 n
  then ascii_of_nat (n + 32) else c.

(** ** Strings *)

Definition len (s : string) : nat := String.length s.

Fixpoint chars (s : string) : list ascii :=
  match s with
  | EmptyString => []
  | String c s' => c :: chars s'
  end.

Fixpoint lower (s : string) : string :=
  match s with
  | EmptyString => EmptyString
  | String c s' => String (lower_char c) (lower s')
  end.

Fixpoint lstrip (s : string) : string :=
  match s with
  | EmptyString => EmptyString
  | String c s' => if isspace c then lstrip s' else s
  end.

Fixpoint rstrip (s : string) : string :=
  match s with
  | EmptyString => EmptyString
  | String c s' =>
      match rstrip s' with
      | EmptyString => if isspace c then EmptyString else String c EmptyString
      | r => String c r
      end
  end.

(** [s.strip()] *)
Definition strip (s : string) : string := rstrip (lstrip s).

(** [s.startswith(p)] *)
Definition startswith (p s : string) : bool := String.prefix p s.

(** [s.find(sub)]: the offset of the first occurrence, if any. *)
Fixpoint find (sub s : string) : option nat :=
  if String.prefix sub s then Some 0
  else match s with
       | EmptyString => None
       | String _ s' => S <$> find sub s'
       end.

(** [sub in s] *)
Definition contains (sub s : string) : bool :=
  match find sub s with Some _ => true | None => false end.

(** [s.index(sub)] raises [ValueError] when [sub] does not occur. *)
Definition index (sub s : string) : result nat :=
  match find sub s with Some k => Ok k | None => Raise ValueError end.

(** [s[:k]] *)
Fixpoint slice_to (k : nat) (s : string) : string :=
  match k, s with
  | S k', String c s' => String c (slice_to k' s')
  | _, _ => EmptyString
  end.

(** [s[k:]] *)
Fixpoint slice_from (k : nat) (s : string) : string :=
  match k, s with
  | S k', String _ s' => slice_from k' s'
  | _, _ => s
  end.

Definition push_word (w : string) (ws : list string) : list string :=
  match w with
  | EmptyString => ws
  | _ => w :: ws
  end.

(** The word being read at the head of [s], and the words after it. *)
Fixpoint split_go (s : string) : string * list string :=
  match s with
  | EmptyString => (EmptyString, [])
  | String c s' =>
      let '(w, ws) := split_go s' in
      if isspace c then (EmptyString, push_word w ws) else (String c w, ws)
  end.

(** [s.split()]: the maximal runs of non-whitespace characters. *)
Definition split (s : string) : list string :=
  let '(w, ws) := split_go s in push_word w ws.

(** Nothing but whitespace. *)
Definition blank (s : string) : Prop := Forall (fun c => isspace c = true) (chars s).

(** ** Dictionaries (insertion-ordered, unique keys) *)

Section dict.
Context {K V : Type} `{EqDecision K}.

Definition dict : Type := list (K * V).

(** [d.get(k)] *)
Fixpoint dict_get (d : dict) (k : K) : option V :=
  match d with
  | [] => None
  | (k', v) :: d' => if decide (k = k') then Some v else dict_get d' k
  end.

(** [k in d] *)
Definition dict_has (d : dict) (k : K) : bool :=
  match dict_get d k with Some _ => true | None => false end.

(** [d[k] = v]: an existing key keeps its place, a new one goes last. *)
Fixpoint dict_set (d : dict) (k : K) (v : V) : dict :=
  match d with
  | [] => [(k, v)]
  | (k', v') :: d' =>
      if decide (k = k') then (k', v) :: d' else (k', v') :: dict_set d' k v
  end.

Definition dict_keys (d : dict) : list K := d.*1.
Definition dict_values (d : dict) : list V := d.*2.
End dict.
Arguments dict : clear implicits.

(** ** The data model (visualize.py, lines 10-50) *)

(** References to [Variable] and to [Constraint] objects: addresses in the
    store. *)
Abbreviation vref := nat (only parsing).
Abbreviation cref := nat (only parsing).

Record Constraint : Set := mkConstraint {
  con_variables : list vref
}.

Record Variable_ : Set := mkVariable {
  var_id : string;
  var_constraints : list cref
}.

(** A [Model] object together with the store of the [Variable] and
    [Constraint] objects it has allocated: [variable_objs] and
    [constraint_objs] are the store, [variables] and [constraints] are the
    two attributes of the Python object. *)
Record Model : Type := mkModel {
  variable_objs : list Variable_;
  constraint_objs : list Constraint;
  variables : dict string vref;
  constraints : list cref
}.

(** [Model()] *)
Definition new_model : Model :=
  {| variable_objs := []; constraint_objs := []; variables := []; constraints := [] |}.

(** [Model.create_variable] *)
Definition create_variable (i : string) (m : Model) : vref * Model :=
  match dict_get (variables m) i with
  | Some r => (r, m)
  | None =>
      let r := length (variable_objs m) in
      (r, {| variable_objs := variable_objs m ++ [mkVariable i []];
             constraint_objs := constraint_objs m;
             variables := dict_set (variables m) i r;
             constraints := constraints m |})
  end.

(** [[self.create_variable(id) for id in variables]] *)
Fixpoint create_variables (ids : list string) (m : Model) : list vref * Model :=
  match ids with
  | [] => ([], m)
  | i :: ids' =>
      let '(r, m1) := create_variable i m in
      let '(rs, m2) := create_variables ids' m1 in
      (r :: rs, m2)
  end.

(** [var.constraints.append(constraint)] on the object at [r]. *)
Definition add_backref (c : cref) (m : Model) (r : vref) : Model :=
  {| variable_objs :=
       alter (fun v => mkVariable (var_id v) (var_constraints v ++ [c])) r
             (variable_objs m);
     constraint_objs := constraint_objs m;
     variables := variables m;
     constraints := constraints m |}.

(** [Model.create_constraint_relation] *)
Definition create_constraint_relation (ids : list string) (m : Model) : Model :=
  let '(vars, m1) := create_variables ids m in
  let c := length (constraint_objs m1) in
  let m2 := {| variable_objs := variable_objs m1;
               constraint_objs := constraint_objs m1 ++ [mkConstraint vars];
               variables := variables m1;
               constraints := constraints m1 ++ [c] |} in
  foldl (add_backref c) m2 vars.

(** Reading through references. *)
Definition id_at (m : Model) (r : vref) : string :=
  match variable_objs m !! r with
  | Some v => var_id v
  | None => EmptyString
  end.

Definition variables_at (m : Model) (c : cref) : list vref :=
  match constraint_objs m !! c with
  | Some k => con_variables k
  | None => []
  end.

(** [[v.id for v in c.variables]] for the constraint object at [c]. *)
Definition constraint_ids (m : Model) (c : cref) : list string :=
  id_at m <$> variables_at m c.

(** The ids of every constraint of the model, in order. *)
Definition relations (m : Model) : list (list string) :=
  constraint_ids m <$> constraints m.

(** *** Well-formed models *)

(** The reference [r] leads to a variable object whose id is [i]. *)
Definition points_to (m : Model) (r : vref) (i : string) : Prop :=
  ∃ v, variable_objs m !! r = Some v ∧ var_id v = i.

(** [variables] files each object under the id the object carries. *)
Definition keyed (m : Model) : Prop :=
  ∀ i r, dict_get (variables m) i = Some r → points_to m r i.

(** The object at [r] is the one [variables] holds under the object's id. *)
Definition owned (m : Model) (r : vref) : Prop :=
  ∃ i, points_to m r i ∧ dict_get (variables m) i = Some r.

(** Every variable referenced by a constraint of the model is owned. *)
Definition references_owned (m : Model) : Prop :=
  ∀ c, c ∈ constraints m →
    ∃ k, constraint_objs m !! c = Some k ∧ Forall (owned m) (con_variables k).

(** The models that the two methods build from [Model()]. *)
Inductive built : Model → Prop :=
| built_new : built new_model
| built_variable i m : built m → built (create_variable i m).2
| built_relation ids m : built m → built (create_constraint_relation ids m).

(** ** The identifier predicate (visualize.py, lines 53-70) *)

Definition first_char_banned : list ascii :=
  ["+"; "-"; "*"; "^"; "<"; ">"; "="; "("; ")"; "["; "]"; ","; ":"]%char.

Definition any_char_banned : list ascii :=
  ["+"; "-"; "*"; "^"; ":"]%char.

Definition is_variable (word : string) : bool :=
  if (255 <? len word) || (len word =? 0) then false
  else match word with
       | EmptyString => false
       | String c0 _ =>
           if isdigit c0 then false
           else if bool_decide (c0 ∈ first_char_banned) then false
           else if existsb (fun c => bool_decide (c ∈ any_char_banned)) (chars word)
                then false
                else true
       end.

(** ** The LP reader (visualize.py, lines 73-133) *)

Inductive section : Set := objective | constraint.

Definition section_obj : list string :=
  ["minimize"; "maximize"; "minimum"; "maximum"; "min"; "max"].

Definition section_con : list string :=
  ["subject to"; "such that"; "st"; "s.t."].

Definition backslash : string := String (ascii_of_nat 92) EmptyString.

(** [line[0]] *)
Definition first (line : string) : result ascii :=
  match line with
  | EmptyString => Raise IndexError
  | String c _ => Ok c
  end.

(** Lines 117-126: the variables named on a row of a section. *)
Definition lp_variables (stripped_lower : string) : result (list string) :=
  let line := stripped_lower in
  line ← (if contains backslash line
          then k ← index backslash line; Ok (slice_to k line)
          else Ok line);
  line ← (if contains ":" line
          then k ← index ":" line; Ok (slice_from (k + 1) line)
          else Ok line);
  Ok (filter (fun w => is_variable w = true) (split line)).

(** One turn of the loop of [read_lp] (lines 94-128) on the loop's
    variables [model] and [current_section]. *)
Definition lp_line (line : string) (st : Model * option section)
  : result (Model * option section) :=
  let '(model, current_section) := st in
  if startswith backslash line then Ok st
  else
    let stripped_lower := lower (strip line) in
    if len stripped_lower =? 0 then Ok st
    else
      c0 ← first line;
      let is_header := isalpha c0 in
      if is_header then
        if bool_decide (stripped_lower ∈ section_obj) then Ok (model, Some objective)
        else if bool_decide (stripped_lower ∈ section_con) then Ok (model, Some constraint)
        else Ok (model, None)
      else
        match current_section with
        | None => Ok st
        | Some _ =>
            variables ← lp_variables stripped_lower;
            if 0 <? length variables
            then Ok (create_constraint_relation variables model, current_section)
            else Ok st
        end.

Fixpoint lp_lines (lines : list string) (st : Model * option section)
  : result (Model * option section) :=
  match lines with
  | [] => Ok st
  | line :: rest => st' ← lp_line line st; lp_lines rest st'
  end.

(** [read_lp], on the lines of the opened file. *)
Definition read_lp (lines : list string) : result Model :=
  st ← lp_lines lines (new_model, None); Ok st.1.

(** ** The MPS reader (visualize.py, lines 136-184) *)

(** [range(start, stop, step)] for a positive [step]. *)
Definition range (start stop step : nat) : list nat :=
  (fun k => start + k * step) <$> seq 0 ((stop - start + (step - 1)) / step).

(** [xs[i]] *)
Definition item {A} (xs : list A) (i : nat) : result A :=
  match xs !! i with
  | Some x => Ok x
  | None => Raise IndexError
  end.

(** Lines 173-176: the body of the loop over the columns of a row. *)
Definition mps_entry (content : list string) (row : string)
    (rows : dict string (list string)) (i : nat)
  : result (dict string (list string)) :=
  col ← item content i;
  let rows := if dict_has rows row then rows else dict_set rows row [] in
  match dict_get rows row with
  | Some cols => Ok (dict_set rows row (cols ++ [col]))
  | None => Raise KeyError
  end.

Fixpoint mps_entries (content : list string) (row : string)
    (rows : dict string (list string)) (indices : list nat)
  : result (dict string (list string)) :=
  match indices with
  | [] => Ok rows
  | i :: rest => rows' ← mps_entry content row rows i; mps_entries content row rows' rest
  end.

(** How one turn of the loop ends: it goes on to the next line, or the
    loop is left by [break]. *)
Inductive flow (A : Type) : Type :=
| Next (a : A)
| Break (a : A).
Arguments Next {A} a.
Arguments Break {A} a.

(** One turn of the loop of [read_mps] (lines 153-176) on the loop's
    variables [rows] and [is_columns]. *)
Definition mps_line (line : string) (st : dict string (list string) * bool)
  : result (flow (dict string (list string) * bool)) :=
  let '(rows, is_columns) := st in
  if startswith "COLUMNS" line then Ok (Next (rows, true))
  else if negb is_columns then Ok (Next st)
  else if len (strip line) =? 0 then Ok (Next st)
  else
    c0 ← first line;
    if negb (isspace c0) then Ok (Break st)
    else
      let content := filter (fun w => w ≠ EmptyString) (split line) in
      c1 ← item content 1;
      if contains "MARKER" c1 then Ok (Next st)
      else
        row ← item content 0;
        rows' ← mps_entries content row rows (range 1 (length content) 2);
        Ok (Next (rows', is_columns)).

(** The state in which a turn, or the loop, ended. *)
Definition state_of {A} (f : flow A) : A :=
  match f with Next a | Break a => a end.

(** The loop: [Next] when the lines ran out, [Break] when it was left. *)
Fixpoint mps_lines (lines : list string) (st : dict string (list string) * bool)
  : result (flow (dict string (list string) * bool)) :=
  match lines with
  | [] => Ok (Next st)
  | line :: rest =>
      f ← mps_line line st;
      match f with
      | Next st' => mps_lines rest st'
      | Break st' => Ok (Break st')
      end
  end.

(** Lines 181-184: one constraint relation per row, in the order of the dict. *)
Definition model_of_rows (rows : dict string (list string)) : Model :=
  foldl (fun model row => create_constraint_relation row model) new_model (dict_values rows).

(** [read_mps], on the lines of the opened file. *)
Definition read_mps (lines : list string) : result Model :=
  f ← mps_lines lines ([], false); Ok (model_of_rows (state_of f).1).

(** ** The graph built by [plot] (visualize.py, lines 197-217) *)

(** Lines 207-210: the smaller id first. *)
Definition edge_of (a b : string) : string * string :=
  if String.ltb a b then (a, b) else (b, a).

(** Lines 211-214 *)
Definition count_edge (edges : dict (string * string) nat) (edge : string * string)
  : dict (string * string) nat :=
  match dict_get edges edge with
  | None => dict_set edges edge 1
  | Some n => dict_set edges edge (n + 1)
  end.

(** [ids[i]], for [i] below the length. *)
Definition id_nth (ids : list string) (i : nat) : string := nth i ids EmptyString.

(** Lines 205-214, for a constraint whose variables have the ids [ids]. *)
Definition constraint_edges (edges : dict (string * string) nat) (ids : list string)
  : dict (string * string) nat :=
  foldl (fun edges i =>
    foldl (fun edges j => count_edge edges (edge_of (id_nth ids i) (id_nth ids j)))
          edges (range (i + 1) (length ids) 1))
    edges (range 0 (length ids) 1).

(** Lines 203-214: the dict [edges]. *)
Definition model_edges (model : Model) : dict (string * string) nat :=
  foldl constraint_edges [] (relations model).

(** The graph [G]: the nodes and the weighted edges added to it, in order. *)
Record Graph : Set := mkGraph {
  nodes : list string;
  edges : list (string * string * nat)
}.

(** Lines 198-217 *)
Definition plot_graph (model : Model) (weighted : bool) : Graph :=
  {| nodes := id_at model <$> dict_values (variables model);
     edges := (fun e : string * string * nat =>
                 (e.1.1, e.1.2, if weighted then e.2 else 1)) <$> model_edges model |}.

(** ** Vocabulary of the statements below *)

(** The line feed that ends a line of a text file. *)
Definition nl : string := String (ascii_of_nat 10) EmptyString.

(** The variables of a row's [variable value variable value ...] tokens:
    the first token of each pair, and the last token when it has no
    partner. *)
Fixpoint pair_variables {A} (tokens : list A) : list A :=
  match tokens with
  | [] => []
  | variable :: rest =>
      variable :: match rest with
                  | [] => []
                  | _ :: rest' => pair_variables rest'
                  end
  end.

(** [rows] after [cols] were appended to the list kept for [row]. *)
Definition extend_row (rows : dict string (list string)) (row : string)
    (cols : list string) : dict string (list string) :=
  match cols with
  | [] => rows
  | _ => dict_set rows row (default [] (dict_get rows row) ++ cols)
  end.

(** The list kept for [row] holds [col]. *)
Definition row_has (rows : dict string (list string)) (row col : string) : Prop :=
  ∃ cols, dict_get rows row = Some cols ∧ col ∈ cols.

(** The edges that lines 205-214 count for a constraint whose variables
    have the ids [ids], in the order of the two loops. *)
Definition visited (ids : list string) : list (string * string) :=
  i ← seq 0 (length ids);
  (fun j => edge_of (id_nth ids i) (id_nth ids j)) <$> seq (i + 1) (length ids - (i + 1)).

(** The id [x] stands at two positions of [ids]. *)
Definition listed_twice (ids : list string) (x : string) : Prop :=
  ∃ i j, i < j ∧ ids !! i = Some x ∧ ids !! j = Some x.

(** ** Opening the file (visualize.py, lines 82-89 and 141-148) *)

(** [s.endswith(suffix)] *)
Definition endswith (suffix s : string) : bool :=
  (len suffix <=? len s) && String.eqb (slice_from (len s - len suffix) s) suffix.

(** The three ways in which the readers open their file. *)
Inductive opener : Set := gzip_open | tarfile_open | plain_open.

(** Lines 83-89 (and 142-148): the opener chosen for a file name. *)
Definition open_file (file : string) : opener :=
  if endswith ".gz" file then gzip_open
  else if endswith ".tar.gz" file then tarfile_open
  else plain_open.

(** ** The entry point (visualize.py, lines 244-269) *)

(** [s.rfind(sub)]: the offset of the last occurrence, if any. *)
Fixpoint rfind (sub s : string) : option nat :=
  match s with
  | EmptyString => if String.prefix sub s then Some 0 else None
  | String _ s' =>
      match rfind sub s' with
      | Some k => Some (S k)
      | None => if String.prefix sub s then Some 0 else None
      end
  end.

(** [s.rindex(sub)] raises [ValueError] when [sub] does not occur. *)
Definition rindex (sub s : string) : result nat :=
  match rfind sub s with Some k => Ok k | None => Raise ValueError end.



(** Lines 266-268: the name of the file the figure is saved to. *)
Definition output_name (input output : string) : result string :=
  k ← rindex "." input;
  let output_name := slice_to k input +:+ ".png" in
  if bool_decide (output ≠ EmptyString) then Ok output else Ok output_name.


(** ** More vocabulary *)

(** How often [x] occurs in [l]. *)
Definition occurrences {A} `{EqDecision A} (x : A) (l : list A) : nat :=
  length (filter (fun y => y = x) l).

(** [v.constraints] for the variable object at [r]. *)
Definition backrefs_at (m : Model) (r : vref) : list cref :=
  match variable_objs m !! r with
  | Some v => var_constraints v
  | None => []
  end.

(** The variables of a constraint object are objects of the store. *)
Definition refs_in_range (m : Model) : Prop :=
  ∀ c r, r ∈ variables_at m c → r < length (variable_objs m).

(** [v.constraints] holds [c] as often as [c.variables] holds [v]. *)
Definition backrefs_consistent (m : Model) : Prop :=
  ∀ r c, occurrences c (backrefs_at m r) = occurrences r (variables_at m c).

(** All characters are their own lower case. *)
Definition is_lower (s : string) : Prop := lower s = s.

(** An id as [read_lp] makes them: accepted by [is_variable], in lower
    case. *)
Definition lp_id (i : string) : Prop := is_variable i = true ∧ is_lower i.

(** What [read_lp] keeps true of its model from line to line. *)
Definition lp_model_ok (m : Model) : Prop :=
  built m
  ∧ Forall (fun ids => ids ≠ [] ∧ Forall lp_id ids) (relations m)
  ∧ Forall lp_id (dict_keys (variables m)).

(** The line does not lower-case and trim to a section keyword. *)
Definition names_no_section (line : string) : Prop :=
  (lower (strip line) ∉ section_obj) ∧ (lower (strip line) ∉ section_con).

(** * Properties *)

(** ** Strings *)

Section strings.
Implicit Types (s sub : string) (c : ascii).

Lemma lstrip_blank s : lstrip s = EmptyString ↔ blank s.
Proof.
  unfold blank. induction s as [|c s IH]; simpl.
  - split; [constructor | done].
  - destruct (isspace c) eqn:Hc.
    + rewrite IH. split; [by constructor | by inversion 1].
    + split; [done | inversion 1; congruence].
Qed.

Lemma lstrip_head s c s' : lstrip s = String c s' → isspace c = false.
Proof.
  induction s as [|d s IH]; simpl; [done|].
  destruct (isspace d) eqn:Hd; [done | congruence].
Qed.

Lemma rstrip_blank s : rstrip s = EmptyString ↔ blank s.
Proof.
  unfold blank. induction s as [|c s IH]; simpl.
  - split; [constructor | done].
  - destruct (rstrip s) as [|d r] eqn:Hr.
    + destruct (isspace c) eqn:Hc.
      * split; [intros _; constructor; [done | by apply IH] | done].
      * split; [done | inversion 1; congruence].
    + split; [done|]. inversion 1 as [|? ? _ Hs]; subst.
      apply IH in Hs. done.
Qed.

Lemma strip_blank s : strip s = EmptyString ↔ blank s.
Proof.
  unfold strip. rewrite rstrip_blank. split.
  - intros Hb. apply lstrip_blank.
    destruct (lstrip s) as [|c r] eqn:Hl; [done|].
    apply lstrip_head in Hl. inversion Hb; congruence.
  - intros Hb. apply lstrip_blank in Hb. rewrite Hb. constructor.
Qed.

Lemma split_go_blank s : blank s → split_go s = (EmptyString, []).
Proof.
  unfold blank. induction s as [|c s IH]; simpl; [done|].
  inversion 1 as [|? ? Hc Hs]; subst. rewrite (IH Hs), Hc. done.
Qed.

Lemma split_blank s : blank s → split s = [].
Proof. intros Hb. unfold split. by rewrite split_go_blank. Qed.

Lemma len_0 s : len s = 0 ↔ s = EmptyString.
Proof. destruct s; simpl; split; done. Qed.

Lemma len_lower s : len (lower s) = len s.
Proof. induction s; simpl; congruence. Qed.

(** A line with something on it has a first character. *)
Lemma first_nonblank s : (len (strip s) =? 0) = false → ∃ c, first s = Ok c.
Proof. destruct s as [|c s]; [done | by exists c]. Qed.

(** [index] does not raise under the guard [sub in s]. *)
Lemma index_guarded sub s : contains sub s = true → ∃ k, index sub s = Ok k.
Proof. unfold contains, index. destruct (find sub s) as [k|]; [by exists k | done]. Qed.

Lemma chars_length s : length (chars s) = len s.
Proof. induction s; simpl; congruence. Qed.
End strings.

(** ** The identifier predicate *)

(** C5. [is_variable] accepts a token exactly when its length is between 1
    and 255, its first character is neither a digit nor one of
    [+ - * ^ < > = ( ) [ ] , :], and none of its characters is one of
    [+ - * ^ :]. *)
Theorem is_variable_iff (word : string) :
  is_variable word = true ↔
    (1 ≤ len word ≤ 255)
    ∧ (∀ c0, first word = Ok c0 → isdigit c0 = false ∧ c0 ∉ first_char_banned)
    ∧ (∀ c, c ∈ chars word → c ∉ any_char_banned).
Proof.
  unfold is_variable.
  destruct (255 <? len word) eqn:Hhi; simpl.
  { apply Nat.ltb_lt in Hhi. split; [done | lia]. }
  apply Nat.ltb_ge in Hhi.
  destruct (len word =? 0) eqn:Hlo.
  { apply Nat.eqb_eq in Hlo. split; [done | lia]. }
  apply Nat.eqb_neq in Hlo.
  destruct word as [|c0 w]; [done|].
  set (word := String c0 w) in *.
  destruct (isdigit c0) eqn:Hd.
  { split; [done|]. intros (_ & Hf & _). destruct (Hf c0 eq_refl); congruence. }
  case_bool_decide as Hb.
  { split; [done|]. intros (_ & Hf & _). by destruct (Hf c0 eq_refl). }
  destruct (existsb _ (chars word)) eqn:He.
  - split; [done|]. intros (_ & _ & Ha).
    apply existsb_exists in He as (c & Hin & Hc).
    apply bool_decide_eq_true in Hc. apply list_elem_of_In in Hin.
    by destruct (Ha c Hin).
  - split; [intros _ | done]. split; [lia|]. split.
    + intros c [= <-]. done.
    + intros c Hin Hbad. apply not_true_iff_false in He. apply He.
      apply existsb_exists. exists c. split; [by apply list_elem_of_In|].
      by apply bool_decide_eq_true.
Qed.

(** ** Dictionaries *)

Section dict_facts.
Context {K V : Type} `{EqDecision K}.
Implicit Types (d : dict K V) (k : K) (v : V).

Lemma dict_get_set d k v j :
  dict_get (dict_set d k v) j = if decide (j = k) then Some v else dict_get d j.
Proof.
  induction d as [|[k' v'] d IH]; simpl.
  - done.
  - destruct (decide (k = k')) as [->|Hk]; simpl.
    + by destruct (decide (j = k')).
    + rewrite IH. destruct (decide (j = k')) as [->|]; [|done].
      by destruct (decide (k' = k)) as [->|].
Qed.

Lemma dict_get_set_eq d k v : dict_get (dict_set d k v) k = Some v.
Proof. rewrite dict_get_set. by destruct (decide (k = k)). Qed.

Lemma dict_get_set_ne d k v j : j ≠ k → dict_get (dict_set d k v) j = dict_get d j.
Proof. intros Hne. rewrite dict_get_set. by destruct (decide (j = k)). Qed.

Lemma dict_get_Some_keys d k v : dict_get d k = Some v → k ∈ dict_keys d.
Proof.
  unfold dict_keys. induction d as [|[k' v'] d IH]; simpl; [done|].
  destruct (decide (k = k')) as [->|]; [intros _; left | intros Hd; right; auto].
Qed.

Lemma dict_get_None_keys d k : dict_get d k = None ↔ k ∉ dict_keys d.
Proof.
  unfold dict_keys. induction d as [|[k' v'] d IH]; simpl.
  - split; [intros _; apply not_elem_of_nil | done].
  - rewrite not_elem_of_cons. destruct (decide (k = k')) as [->|Hne].
    + split; [done | by intros [? _]].
    + rewrite IH. tauto.
Qed.
End dict_facts.

(** ** The model *)

Section model_facts.
Implicit Types (m : Model) (r : vref) (c : cref) (i : string).

Lemma points_to_id_at m r i : points_to m r i → id_at m r = i.
Proof. intros (v & Hv & Hi). unfold id_at. by rewrite Hv. Qed.

Lemma owned_points_to m r : owned m r → points_to m r (id_at m r).
Proof.
  intros (i & Hp & _). by rewrite (points_to_id_at m r i Hp).
Qed.

(** *** [create_variable] *)

Lemma create_variable_fresh i m :
  dict_get (variables m) i = None →
  create_variable i m =
    (length (variable_objs m),
     {| variable_objs := variable_objs m ++ [mkVariable i []];
        constraint_objs := constraint_objs m;
        variables := dict_set (variables m) i (length (variable_objs m));
        constraints := constraints m |}).
Proof. intros Hi. unfold create_variable. by rewrite Hi. Qed.

Lemma create_variable_known i m r :
  dict_get (variables m) i = Some r → create_variable i m = (r, m).
Proof. intros Hi. unfold create_variable. by rewrite Hi. Qed.

Lemma create_variable_constraints i m :
  constraints (create_variable i m).2 = constraints m
  ∧ constraint_objs (create_variable i m).2 = constraint_objs m.
Proof. unfold create_variable. by destruct (dict_get (variables m) i). Qed.

Lemma create_variable_points_to i m r j :
  points_to m r j → points_to (create_variable i m).2 r j.
Proof.
  intros (v & Hv & Hj). unfold create_variable.
  destruct (dict_get (variables m) i); simpl; [by exists v|].
  exists v. split; [by apply lookup_app_l_Some | done].
Qed.

Lemma create_variable_keyed i m : keyed m → keyed (create_variable i m).2.
Proof.
  intros Hk. destruct (dict_get (variables m) i) as [r|] eqn:Hi.
  - by rewrite (create_variable_known i m r Hi).
  - intros j r. rewrite (create_variable_fresh i m Hi). simpl.
    rewrite dict_get_set. destruct (decide (j = i)) as [->|Hne].
    + intros [= <-]. exists (mkVariable i []). simpl.
      split; [|done]. by rewrite lookup_app_r, Nat.sub_diag.
    + intros Hj. destruct (Hk j r Hj) as (v & Hv & Hid).
      exists v. simpl. split; [by apply lookup_app_l_Some | done].
Qed.

Lemma create_variable_owned i m r : owned m r → owned (create_variable i m).2 r.
Proof.
  intros (j & Hp & Hd). exists j.
  split; [by apply create_variable_points_to|].
  destruct (dict_get (variables m) i) as [r'|] eqn:Hi.
  - by rewrite (create_variable_known i m r' Hi).
  - rewrite (create_variable_fresh i m Hi). simpl.
    rewrite dict_get_set_ne; [done | congruence].
Qed.

(** The answer of [create_variable] is the object filed under the id. *)
Lemma create_variable_result i m :
  keyed m →
  points_to (create_variable i m).2 (create_variable i m).1 i
  ∧ dict_get (variables (create_variable i m).2) i = Some (create_variable i m).1.
Proof.
  intros Hk. destruct (dict_get (variables m) i) as [r|] eqn:Hi.
  - rewrite (create_variable_known i m r Hi). simpl. split; [by apply Hk | done].
  - rewrite (create_variable_fresh i m Hi). simpl. split.
    + exists (mkVariable i []). simpl. split; [|done].
      by rewrite lookup_app_r, Nat.sub_diag.
    + apply dict_get_set_eq.
Qed.

(** Calling it again gives the same object and changes nothing. *)
Lemma create_variable_idempotent i m :
  create_variable i (create_variable i m).2
  = ((create_variable i m).1, (create_variable i m).2).
Proof.
  destruct (dict_get (variables m) i) as [r|] eqn:Hi.
  - rewrite (create_variable_known i m r Hi). simpl.
    by apply create_variable_known.
  - rewrite (create_variable_fresh i m Hi). simpl.
    apply create_variable_known. simpl. apply dict_get_set_eq.
Qed.

Lemma create_variable_keys i m j :
  j ∈ dict_keys (variables (create_variable i m).2)
  ↔ j ∈ dict_keys (variables m) ∨ j = i.
Proof.
  destruct (dict_get (variables m) i) as [r|] eqn:Hi.
  - rewrite (create_variable_known i m r Hi). simpl.
    apply dict_get_Some_keys in Hi. split; [by left | by intros [?| ->]].
  - rewrite (create_variable_fresh i m Hi). simpl.
    destruct (decide (j ∈ dict_keys (variables m))) as [Hin|Hnin].
    + split; [by left | intros _].
      apply dict_get_None_keys in Hi.
      destruct (dict_get (dict_set (variables m) i (length (variable_objs m))) j)
        eqn:Hg; [by eapply dict_get_Some_keys|].
      rewrite dict_get_set_ne in Hg by congruence.
      by apply dict_get_None_keys in Hg.
    + split.
      * intros Hin. right. destruct (decide (j = i)); [done|].
        apply dict_get_None_keys in Hnin.
        assert (dict_get (dict_set (variables m) i (length (variable_objs m))) j = None)
          as Hg by by rewrite dict_get_set_ne.
        by apply dict_get_None_keys in Hg.
      * intros [?| ->]; [done|].
        eapply dict_get_Some_keys, dict_get_set_eq.
Qed.

(** *** The comprehension over [create_variable] *)

Lemma create_variables_cons i ids m :
  create_variables (i :: ids) m =
    ((create_variable i m).1 :: (create_variables ids (create_variable i m).2).1,
     (create_variables ids (create_variable i m).2).2).
Proof.
  simpl. destruct (create_variable i m) as [r m1]; simpl.
  by destruct (create_variables ids m1).
Qed.

Lemma create_variables_constraints ids m :
  constraints (create_variables ids m).2 = constraints m
  ∧ constraint_objs (create_variables ids m).2 = constraint_objs m.
Proof.
  revert m. induction ids as [|i ids IH]; intros m; [done|].
  rewrite create_variables_cons. simpl.
  destruct (IH (create_variable i m).2) as [-> ->].
  apply create_variable_constraints.
Qed.

Lemma create_variables_keyed ids m : keyed m → keyed (create_variables ids m).2.
Proof.
  revert m. induction ids as [|i ids IH]; intros m Hk; [done|].
  rewrite create_variables_cons. simpl. by apply IH, create_variable_keyed.
Qed.

Lemma create_variables_points_to ids m r j :
  points_to m r j → points_to (create_variables ids m).2 r j.
Proof.
  revert m. induction ids as [|i ids IH]; intros m Hp; [done|].
  rewrite create_variables_cons. simpl. by apply IH, create_variable_points_to.
Qed.

Lemma create_variables_owned ids m r : owned m r → owned (create_variables ids m).2 r.
Proof.
  revert m. induction ids as [|i ids IH]; intros m Ho; [done|].
  rewrite create_variables_cons. simpl. by apply IH, create_variable_owned.
Qed.

Lemma create_variables_result ids m :
  keyed m →
  Forall2 (points_to (create_variables ids m).2) (create_variables ids m).1 ids
  ∧ Forall (owned (create_variables ids m).2) (create_variables ids m).1.
Proof.
  revert m. induction ids as [|i ids IH]; intros m Hk.
  { split; constructor. }
  rewrite create_variables_cons. simpl.
  destruct (create_variable_result i m Hk) as [Hp Hd].
  destruct (IH _ (create_variable_keyed i m Hk)) as [IH1 IH2].
  split; constructor; try done.
  - by apply create_variables_points_to.
  - apply create_variables_owned. by exists i.
Qed.

Lemma create_variables_keys ids m j :
  j ∈ dict_keys (variables (create_variables ids m).2)
  ↔ j ∈ dict_keys (variables m) ∨ j ∈ ids.
Proof.
  revert m. induction ids as [|i ids IH]; intros m.
  { simpl. rewrite elem_of_nil. tauto. }
  rewrite create_variables_cons. simpl.
  rewrite IH, create_variable_keys, elem_of_cons. tauto.
Qed.

(** *** Back-references *)

Lemma add_backref_points_to c m r r' j :
  points_to m r' j → points_to (add_backref c m r) r' j.
Proof.
  intros (v & Hv & Hj). unfold points_to, add_backref; simpl.
  destruct (decide (r = r')) as [->|Hne].
  - rewrite list_lookup_alter_eq, Hv. simpl. by eexists.
  - rewrite list_lookup_alter_ne by done. by exists v.
Qed.

Lemma add_backref_keyed c m r : keyed m → keyed (add_backref c m r).
Proof. intros Hk j r' Hj. by apply add_backref_points_to, Hk. Qed.

Lemma add_backref_owned c m r r' : owned m r' → owned (add_backref c m r) r'.
Proof.
  intros (j & Hp & Hd). exists j. split; [by apply add_backref_points_to | done].
Qed.

Lemma add_backref_references c m r :
  references_owned m → references_owned (add_backref c m r).
Proof.
  intros Hm c' Hc'. destruct (Hm c' Hc') as (k & Hk & Hall).
  exists k. split; [done|].
  eapply Forall_impl; [exact Hall|]. intros r'. apply add_backref_owned.
Qed.

Lemma add_backrefs_fields c rs m :
  constraint_objs (foldl (add_backref c) m rs) = constraint_objs m
  ∧ variables (foldl (add_backref c) m rs) = variables m
  ∧ constraints (foldl (add_backref c) m rs) = constraints m.
Proof.
  revert m. induction rs as [|r rs IH]; intros m; simpl; [done|].
  destruct (IH (add_backref c m r)) as (-> & -> & ->). done.
Qed.

Lemma add_backrefs_points_to c rs m r j :
  points_to m r j → points_to (foldl (add_backref c) m rs) r j.
Proof.
  revert m. induction rs as [|r' rs IH]; intros m Hp; simpl; [done|].
  by apply IH, add_backref_points_to.
Qed.

Lemma add_backrefs_invariant c rs m :
  keyed m ∧ references_owned m →
  keyed (foldl (add_backref c) m rs) ∧ references_owned (foldl (add_backref c) m rs).
Proof.
  revert m. induction rs as [|r rs IH]; intros m [Hk Hr]; simpl; [done|].
  apply IH. split; [by apply add_backref_keyed | by apply add_backref_references].
Qed.

(** *** [create_constraint_relation] *)

Lemma create_variable_references i m :
  references_owned m → references_owned (create_variable i m).2.
Proof.
  intros Hm c Hc. destruct (create_variable_constraints i m) as [H1 H2].
  rewrite H1 in Hc. rewrite H2. destruct (Hm c Hc) as (k & Hk & Hall).
  exists k. split; [done|].
  eapply Forall_impl; [exact Hall|]. intros r. apply create_variable_owned.
Qed.

Lemma create_constraint_relation_invariant ids m :
  keyed m ∧ references_owned m →
  keyed (create_constraint_relation ids m)
  ∧ references_owned (create_constraint_relation ids m).
Proof.
  intros [Hk Hr]. unfold create_constraint_relation.
  pose proof (create_variables_keyed ids m Hk) as Hk1.
  destruct (create_variables_result ids m Hk) as [_ Hres].
  pose proof (create_variables_constraints ids m) as [Hcs Hco].
  assert (∀ r, owned m r → owned (create_variables ids m).2 r) as Hmono
    by (intros r; apply create_variables_owned).
  destruct (create_variables ids m) as [vars m1]; simpl in *.
  apply add_backrefs_invariant. split; [exact Hk1|].
  intros c. simpl. rewrite Hcs, Hco, elem_of_app, list_elem_of_singleton.
  intros [Hc| ->].
  - destruct (Hr c Hc) as (k & Hlk & Hall). exists k.
    split; [by apply lookup_app_l_Some|].
    eapply Forall_impl; [exact Hall|]. intros r Ho.
    destruct (Hmono r Ho) as (j & Hp & Hd). by exists j.
  - exists (mkConstraint vars). split.
    + by rewrite lookup_app_r, Nat.sub_diag.
    + eapply Forall_impl; [exact Hres|]. intros r (j & Hp & Hd). by exists j.
Qed.

Lemma built_invariant m : built m → keyed m ∧ references_owned m.
Proof.
  induction 1 as [|i m _ [Hk Hr]|ids m _ IH].
  - split; [intros i r; done | intros c Hc; by apply elem_of_nil in Hc].
  - split; [by apply create_variable_keyed | by apply create_variable_references].
  - by apply create_constraint_relation_invariant.
Qed.

Lemma create_constraint_relation_keys ids m j :
  j ∈ dict_keys (variables (create_constraint_relation ids m))
  ↔ j ∈ dict_keys (variables m) ∨ j ∈ ids.
Proof.
  unfold create_constraint_relation.
  pose proof (create_variables_keys ids m j) as Hkeys.
  destruct (create_variables ids m) as [vars m1]; simpl in *.
  destruct (add_backrefs_fields (length (constraint_objs m1)) vars
    {| variable_objs := variable_objs m1;
       constraint_objs := constraint_objs m1 ++ [mkConstraint vars];
       variables := variables m1;
       constraints := constraints m1 ++ [length (constraint_objs m1)] |})
    as (_ & -> & _).
  exact Hkeys.
Qed.

(** The ids of a list of references that point into the store. *)
Lemma ids_of_points_to m rs ids :
  Forall2 (points_to m) rs ids → id_at m <$> rs = ids.
Proof.
  induction 1 as [|r i rs ids Hp _ IH]; csimpl; [done|].
  by rewrite (points_to_id_at m r i Hp), IH.
Qed.

(** A new relation goes last and leaves the earlier ones as they were. *)
Lemma create_constraint_relation_relations ids m :
  built m →
  relations (create_constraint_relation ids m) = relations m ++ [ids].
Proof.
  intros Hb. destruct (built_invariant m Hb) as [Hk Hr].
  unfold relations, create_constraint_relation.
  destruct (create_variables_result ids m Hk) as [Hres _].
  pose proof (create_variables_constraints ids m) as [Hcs Hco].
  assert (∀ r j, points_to m r j → points_to (create_variables ids m).2 r j)
    as Hmono by (intros r j; apply create_variables_points_to).
  destruct (create_variables ids m) as [vars m1]; simpl in *.
  set (c := length (constraint_objs m1)).
  set (m2 := {| variable_objs := variable_objs m1;
                constraint_objs := constraint_objs m1 ++ [mkConstraint vars];
                variables := variables m1;
                constraints := constraints m1 ++ [c] |}).
  destruct (add_backrefs_fields c vars m2) as (Hf1 & _ & Hf3).
  assert (∀ r j, points_to m1 r j → points_to (foldl (add_backref c) m2 vars) r j)
    as Hlift.
  { intros r j (v & Hv & Hj). apply add_backrefs_points_to. by exists v. }
  rewrite Hf3. simpl. rewrite Hcs, fmap_app. f_equal.
  - apply Forall_fmap_ext_1, Forall_forall. intros c' Hc'.
    destruct (Hr c' Hc') as (k & Hlk & Hall).
    unfold constraint_ids, variables_at. rewrite Hf1. simpl.
    rewrite Hco, (lookup_app_l_Some _ _ _ _ Hlk), Hlk.
    apply Forall_fmap_ext_1. eapply Forall_impl; [exact Hall|].
    intros r Ho. apply owned_points_to in Ho.
    by rewrite (points_to_id_at _ _ _ (Hlift _ _ (Hmono _ _ Ho))).
  - simpl. f_equal. unfold constraint_ids, variables_at. rewrite Hf1. simpl.
    subst c. rewrite lookup_app_r, Nat.sub_diag by done. simpl.
    apply ids_of_points_to.
    eapply Forall2_impl; [exact Hres|]. intros r j. apply Hlift.
Qed.
End model_facts.

(** C7. In every model obtained from the empty one by [create_variable]
    and [create_constraint_relation], each variable object that a constraint
    of the model refers to is the very object that [variables] holds under
    that object's id. *)
Theorem constraints_refer_to_model_variables (m : Model) :
  built m → references_owned m.
Proof. intros Hb. by apply built_invariant. Qed.

Lemma constraints_refer_to_model_variables_witness :
  references_owned
    (create_constraint_relation ["x"; "y"; "x"]
       (create_variable "y" (create_constraint_relation ["x"] new_model)).2).
Proof.
  apply constraints_refer_to_model_variables.
  apply built_relation, built_variable, built_relation, built_new.
Defined.

(** ** The LP reader *)

Section lp_facts.
Implicit Types (line s : string) (m : Model) (cur : option section).

Lemma lp_variables_total s : ∃ vs, lp_variables s = Ok vs.
Proof.
  unfold lp_variables.
  destruct (contains backslash s) eqn:Hb.
  - destruct (index_guarded _ _ Hb) as [k ->]. simpl.
    destruct (contains ":" (slice_to k s)) eqn:Hc.
    + destruct (index_guarded _ _ Hc) as [k' ->]. simpl. by eexists.
    + simpl. by eexists.
  - simpl. destruct (contains ":" s) eqn:Hc.
    + destruct (index_guarded _ _ Hc) as [k' ->]. simpl. by eexists.
    + simpl. by eexists.
Qed.

(** A turn of the loop never raises, and keeps the model one that the
    two methods of [Model] have built. *)
Lemma lp_line_total line m cur :
  ∃ m' cur', lp_line line (m, cur) = Ok (m', cur') ∧ (built m → built m').
Proof.
  unfold lp_line.
  destruct (startswith backslash line); [by eauto|].
  destruct (len (lower (strip line)) =? 0) eqn:Hlen; [by eauto|].
  rewrite len_lower in Hlen.
  destruct (first_nonblank line Hlen) as [c0 ->]. simpl.
  destruct (isalpha c0).
  { repeat case_bool_decide; by eauto. }
  destruct cur as [sec|]; [|by eauto].
  destruct (lp_variables_total (lower (strip line))) as [vs ->]. simpl.
  destruct (0 <? length vs); [|by eauto].
  do 2 eexists. split; [done|]. apply built_relation.
Qed.

Lemma lp_lines_total lines m cur :
  ∃ m' cur', lp_lines lines (m, cur) = Ok (m', cur') ∧ (built m → built m').
Proof.
  revert m cur. induction lines as [|line lines IH]; intros m cur; cbn [lp_lines].
  { by eauto. }
  destruct (lp_line_total line m cur) as (m1 & cur1 & -> & Hb1). cbn [mbind result_bind].
  destruct (IH m1 cur1) as (m2 & cur2 & -> & Hb2).
  exists m2, cur2. split; [done | auto].
Qed.

(** [read_lp] returns a model for whatever lines it is given. *)
Lemma read_lp_total lines : ∃ m, read_lp lines = Ok m ∧ built m.
Proof.
  unfold read_lp.
  destruct (lp_lines_total lines new_model None) as (m & cur & -> & Hb).
  exists m. split; [done|]. apply Hb, built_new.
Qed.

Lemma lp_lines_app lines1 lines2 st :
  lp_lines (lines1 ++ lines2) st = st' ← lp_lines lines1 st; lp_lines lines2 st'.
Proof.
  revert st. induction lines1 as [|line lines1 IH]; intros st; simpl; [done|].
  destruct (lp_line line st) as [st1|e]; simpl; [apply IH | done].
Qed.

Lemma startswith_backslash_alpha c0 rest :
  isalpha c0 = true → startswith backslash (String c0 rest) = false.
Proof.
  intros Ha. unfold startswith, backslash.
  destruct (ascii_dec (ascii_of_nat 92) c0) as [<-|Hne] eqn:Hd.
  - by vm_compute in Ha.
  - cbn -[ascii_dec ascii_of_nat]. by rewrite Hd.
Qed.

(** A header that names the constraint section opens it. *)
Lemma lp_line_constraint_header header c0 m cur :
  first header = Ok c0 → isalpha c0 = true →
  lower (strip header) ∈ section_con →
  lp_line header (m, cur) = Ok (m, Some constraint).
Proof.
  intros Hf Ha Hin. destruct header as [|c rest]; [done|].
  injection Hf as ->. unfold lp_line.
  rewrite (startswith_backslash_alpha c0 rest Ha).
  assert ((len (lower (strip (String c0 rest))) =? 0) = false) as ->.
  { unfold section_con in Hin. rewrite !elem_of_cons, elem_of_nil in Hin.
    destruct Hin as [->|[->|[->|[->|[]]]]]; done. }
  simpl first. simpl. rewrite Ha.
  rewrite bool_decide_eq_false_2.
  - by rewrite bool_decide_eq_true_2.
  - unfold section_con in Hin. rewrite !elem_of_cons, elem_of_nil in Hin.
    destruct Hin as [->|[->|[->|[->|[]]]]];
      by apply (bool_decide_eq_false_1 (_ ∈ section_obj)).
Qed.

(** A line that starts with a letter and names no section closes the
    section that was open. *)
Lemma lp_line_other_header header c0 m cur :
  first header = Ok c0 → isalpha c0 = true →
  lower (strip header) ∉ section_obj → lower (strip header) ∉ section_con →
  lp_line header (m, cur) = Ok (m, None).
Proof.
  intros Hf Ha Ho Hc. destruct header as [|c rest]; [done|].
  injection Hf as ->. unfold lp_line.
  rewrite (startswith_backslash_alpha c0 rest Ha).
  destruct (len (lower (strip (String c0 rest))) =? 0) eqn:Hlen.
  { rewrite len_lower in Hlen. apply Nat.eqb_eq, len_0, strip_blank in Hlen.
    inversion Hlen as [|? ? Hsp _]; subst. exfalso. revert Ha Hsp.
    unfold isalpha, isspace, between.
    destruct c0 as [[] [] [] [] [] [] [] []]; vm_compute; congruence. }
  simpl first. simpl. rewrite Ha.
  by rewrite !bool_decide_eq_false_2.
Qed.

(** A row of an open section adds the relation of its variables. *)
Lemma lp_line_row row c0 m sec vs :
  first row = Ok c0 → isalpha c0 = false →
  startswith backslash row = false →
  lp_variables (lower (strip row)) = Ok vs → vs ≠ [] →
  lp_line row (m, Some sec) = Ok (create_constraint_relation vs m, Some sec).
Proof.
  intros Hf Ha Hb Hvs Hne. unfold lp_line. rewrite Hb, Hf. simpl.
  destruct (len (lower (strip row)) =? 0) eqn:Hlen.
  { apply Nat.eqb_eq, len_0 in Hlen. rewrite Hlen in Hvs.
    vm_compute in Hvs. congruence. }
  rewrite Ha, Hvs. simpl. by destruct vs.
Qed.
End lp_facts.

(** ** The MPS reader *)

Section range_facts.
Lemma range_step1 start stop : range start stop 1 = seq start (stop - start).
Proof.
  unfold range. rewrite Nat.sub_diag, Nat.add_0_r, Nat.div_1_r.
  trans (Nat.add start <$> seq 0 (stop - start)).
  - apply Forall_fmap_ext_1, Forall_forall. intros k _. lia.
  - rewrite fmap_add_seq. f_equal. lia.
Qed.

Lemma range_step2_nil start stop : stop ≤ start → range start stop 2 = [].
Proof.
  intros Hle. unfold range.
  replace (stop - start + (2 - 1)) with 1 by lia. done.
Qed.

Lemma range_step2_cons start stop :
  start < stop → range start stop 2 = start :: range (start + 2) stop 2.
Proof.
  intros Hlt. unfold range.
  destruct (decide (stop = start + 1)) as [->|Hne].
  { replace (start + 1 - start + (2 - 1)) with 2 by lia.
    replace (start + 1 - (start + 2) + (2 - 1)) with 1 by lia.
    cbn. f_equal. lia. }
  replace (stop - start + (2 - 1)) with ((stop - (start + 2) + (2 - 1)) + 1 * 2) by lia.
  rewrite Nat.div_add by done.
  rewrite Nat.add_1_r. cbn [seq]. rewrite fmap_cons. f_equal; [lia|].
  rewrite <- fmap_S_seq, <- list_fmap_compose.
  apply Forall_fmap_ext_1, Forall_forall. intros k _. simpl. lia.
Qed.
End range_facts.

Section split_facts.
Implicit Types (s w : string) (ws : list string).

Lemma push_word_nonempty w ws :
  Forall (fun w => w ≠ EmptyString) ws →
  Forall (fun w => w ≠ EmptyString) (push_word w ws).
Proof. intros Hws. destruct w; simpl; [done | by constructor]. Qed.

Lemma split_go_nonempty s : Forall (fun w => w ≠ EmptyString) (split_go s).2.
Proof.
  induction s as [|c s IH]; simpl; [constructor|].
  destruct (split_go s) as [w ws]. simpl in IH.
  destruct (isspace c); simpl; [by apply push_word_nonempty | done].
Qed.

(** [split] gives no empty word, so the filter of line 167 keeps all. *)
Lemma split_nonempty s : Forall (fun w => w ≠ EmptyString) (split s).
Proof.
  unfold split. pose proof (split_go_nonempty s) as Hs.
  destruct (split_go s) as [w ws]. by apply push_word_nonempty.
Qed.

Lemma filter_all {A} (P : A → Prop) `{∀ x, Decision (P x)} (l : list A) :
  Forall P l → filter P l = l.
Proof.
  induction 1 as [|x l Hx _ IH]; [done|].
  by rewrite filter_cons_True, IH.
Qed.

Lemma content_split s : filter (fun w => w ≠ EmptyString) (split s) = split s.
Proof. apply filter_all, split_nonempty. Qed.

(** A line with a word on it is not blank. *)
Lemma split_cons_nonblank s w ws : split s = w :: ws → (len (strip s) =? 0) = false.
Proof.
  intros Hs. apply Nat.eqb_neq. intros Hlen.
  apply len_0, strip_blank, split_blank in Hlen. congruence.
Qed.

Lemma startswith_columns_space c0 rest :
  isspace c0 = true → startswith "COLUMNS" (String c0 rest) = false.
Proof.
  intros Hsp. unfold startswith.
  destruct (ascii_dec "C" c0) as [<-|Hne] eqn:Hd.
  - by vm_compute in Hsp.
  - cbn -[ascii_dec]. by rewrite Hd.
Qed.
End split_facts.

Section mps_facts.
Implicit Types (line row col : string) (rows : dict string (list string)).
Implicit Types (content : list string).

Lemma dict_set_set {K V} `{EqDecision K} (d : dict K V) k v v' :
  dict_set (dict_set d k v) k v' = dict_set d k v'.
Proof.
  induction d as [|[k' v0] d IH]; simpl.
  - by destruct (decide (k = k)).
  - destruct (decide (k = k')) as [->|Hne]; simpl.
    + by destruct (decide (k' = k')).
    + destruct (decide (k = k')); [done|]. by rewrite IH.
Qed.

(** Lines 173-176 append the column to the list of the row. *)
Lemma mps_entry_spec content row rows i col :
  content !! i = Some col →
  mps_entry content row rows i = Ok (extend_row rows row [col]).
Proof.
  intros Hi. unfold mps_entry, item, extend_row, dict_has. rewrite Hi. simpl.
  destruct (dict_get rows row) as [cols|] eqn:Hg; simpl.
  - by rewrite Hg.
  - by rewrite dict_get_set_eq, dict_set_set.
Qed.

Lemma extend_row_cons rows row col cols :
  extend_row (extend_row rows row [col]) row cols = extend_row rows row (col :: cols).
Proof.
  unfold extend_row. destruct cols as [|col' cols]; [done|].
  rewrite dict_get_set_eq, dict_set_set. cbn [default]. unfold id.
  by rewrite <- app_assoc.
Qed.

Lemma pairs_ind {A} (P : list A → Prop) :
  P [] → (∀ x, P [x]) → (∀ x y l, P l → P (x :: y :: l)) → ∀ l, P l.
Proof.
  intros Hnil Hone Hstep l.
  cut (P l ∧ ∀ x, P (x :: l)); [by intros [? _]|].
  induction l as [|y l [IH1 IH2]]; [by split|].
  split; [apply IH2 | intros x; by apply Hstep].
Qed.

(** The loop of line 172, started at any offset of the content, collects
    every other token from there on. *)
Lemma mps_entries_from row tokens :
  ∀ before rows,
    mps_entries (before ++ tokens) row rows
      (range (length before) (length (before ++ tokens)) 2)
    = Ok (extend_row rows row (pair_variables tokens)).
Proof.
  induction tokens as [|x|x y tokens IH] using pairs_ind; intros before rows.
  - rewrite app_nil_r, range_step2_nil by done. done.
  - rewrite length_app. simpl length.
    rewrite range_step2_cons, range_step2_nil by lia. cbn [mps_entries].
    rewrite (mps_entry_spec _ _ _ _ x); [done|].
    by rewrite lookup_app_r, Nat.sub_diag.
  - rewrite range_step2_cons by (rewrite length_app; simpl; lia).
    cbn [mps_entries].
    rewrite (mps_entry_spec _ _ _ _ x) by by rewrite lookup_app_r, Nat.sub_diag.
    cbn [mbind result_bind].
    replace (before ++ x :: y :: tokens) with ((before ++ [x; y]) ++ tokens)
      by by rewrite <- app_assoc.
    replace (length before + 2) with (length (before ++ [x; y]))
      by (rewrite length_app; simpl; lia).
    rewrite IH. cbn [pair_variables]. by rewrite extend_row_cons.
Qed.

(** A data line of the COLUMNS section: the first token names the row,
    every other token after it is kept. *)
Lemma mps_line_data line c0 row rest rows :
  first line = Ok c0 → isspace c0 = true →
  split line = row :: rest →
  (∃ t, head rest = Some t ∧ contains "MARKER" t = false) →
  mps_line line (rows, true)
  = Ok (Next (extend_row rows row (pair_variables rest), true)).
Proof.
  intros Hf Hsp Hsplit (t & Ht & Hm).
  destruct line as [|c line']; [done|]. injection Hf as ->.
  unfold mps_line.
  rewrite (startswith_columns_space _ _ Hsp), (split_cons_nonblank _ _ _ Hsplit).
  cbn [negb first mbind result_bind]. rewrite Hsp. cbn [negb].
  rewrite content_split, Hsplit.
  destruct rest as [|t' rest]; [done|]. injection Ht as ->.
  cbn [item lookup list_lookup]. cbn [mbind result_bind]. rewrite Hm.
  pose proof (mps_entries_from row (t :: rest) [row] rows) as He.
  change ([row] ++ t :: rest) with (row :: t :: rest) in He.
  change (length [row]) with 1 in He. rewrite He. done.
Qed.

(** A marker line changes nothing, wherever it stands. *)
Lemma mps_line_marker line c0 t st :
  first line = Ok c0 → isspace c0 = true →
  split line !! 1 = Some t → contains "MARKER" t = true →
  mps_line line st = Ok (Next st).
Proof.
  intros Hf Hsp Ht Hm. destruct st as [rows is_columns].
  destruct line as [|c line']; [done|]. injection Hf as ->.
  unfold mps_line. rewrite (startswith_columns_space _ _ Hsp).
  destruct is_columns; [|done]. cbn [negb]. rewrite content_split.
  destruct (split (String c0 line')) as [|w ws] eqn:Hsplit; [done|].
  rewrite (split_cons_nonblank _ _ _ Hsplit).
  cbn [first mbind result_bind]. rewrite Hsp. cbn [negb].
  unfold item. rewrite Ht. cbn [mbind result_bind]. by rewrite Hm.
Qed.

(** An indented line with a single token on it raises at [content[1]]. *)
Lemma mps_line_single_token line c0 row rows :
  first line = Ok c0 → isspace c0 = true → split line = [row] →
  mps_line line (rows, true) = Raise IndexError.
Proof.
  intros Hf Hsp Hsplit. destruct line as [|c line']; [done|]. injection Hf as ->.
  unfold mps_line.
  rewrite (startswith_columns_space _ _ Hsp), (split_cons_nonblank _ _ _ Hsplit).
  cbn [negb first mbind result_bind]. rewrite Hsp. cbn [negb].
  by rewrite content_split, Hsplit.
Qed.

Lemma mps_lines_app lines1 lines2 st :
  mps_lines (lines1 ++ lines2) st =
    f ← mps_lines lines1 st;
    match f with
    | Next st' => mps_lines lines2 st'
    | Break st' => Ok (Break st')
    end.
Proof.
  revert st. induction lines1 as [|line lines1 IH]; intros st; [done|].
  cbn [app mps_lines].
  destruct (mps_line line st) as [[st1|st1]|e]; cbn [mbind result_bind]; [|done..].
  apply IH.
Qed.
End mps_facts.

Section rows_facts.
Implicit Types (line row col : string) (rows : dict string (list string)).

Lemma dict_get_values {K V} `{EqDecision K} (d : dict K V) k v :
  dict_get d k = Some v → v ∈ dict_values d.
Proof.
  unfold dict_values. induction d as [|[k' v'] d IH]; simpl; [done|].
  destruct (decide (k = k')).
  - intros [= ->]. left.
  - intros Hd. right. by apply IH.
Qed.

(** What a row holds, it keeps. *)
Lemma extend_row_has rows row cols row' col :
  row_has rows row' col → row_has (extend_row rows row cols) row' col.
Proof.
  intros (old & Hg & Hin). unfold extend_row.
  destruct cols as [|c cols]; [by exists old|].
  destruct (decide (row' = row)) as [->|Hne].
  - rewrite Hg. eexists. split; [apply dict_get_set_eq|].
    cbn [default]. unfold id. apply elem_of_app. by left.
  - exists old. by rewrite dict_get_set_ne.
Qed.

Lemma extend_row_get rows row cols :
  cols ≠ [] →
  dict_get (extend_row rows row cols) row
  = Some (default [] (dict_get rows row) ++ cols).
Proof.
  intros Hne. unfold extend_row. destruct cols; [done|]. apply dict_get_set_eq.
Qed.

Lemma mps_entries_has content row rows indices rows' row' col :
  mps_entries content row rows indices = Ok rows' →
  row_has rows row' col → row_has rows' row' col.
Proof.
  revert rows. induction indices as [|i indices IH]; intros rows; cbn [mps_entries].
  { by intros [= ->]. }
  destruct (content !! i) as [x|] eqn:Hi.
  - rewrite (mps_entry_spec content row rows i x Hi). cbn [mbind result_bind].
    intros He Hhas. eapply IH; [exact He|]. by apply extend_row_has.
  - unfold mps_entry, item. by rewrite Hi.
Qed.

Lemma mps_line_has line rows is_columns f row' col :
  mps_line line (rows, is_columns) = Ok f →
  row_has rows row' col → row_has (state_of f).1 row' col.
Proof.
  unfold mps_line.
  destruct (startswith "COLUMNS" line); [by intros [= <-]|].
  destruct (negb is_columns); [by intros [= <-]|].
  destruct (len (strip line) =? 0); [by intros [= <-]|].
  destruct (first line) as [c0|]; [|done]. cbn [mbind result_bind].
  destruct (negb (isspace c0)); [by intros [= <-]|].
  destruct (item _ 1) as [c1|]; [|done]. cbn [mbind result_bind].
  destruct (contains "MARKER" c1); [by intros [= <-]|].
  destruct (item _ 0) as [row|]; [|done]. cbn [mbind result_bind].
  destruct (mps_entries _ row rows _) as [rows'|] eqn:He; [|done].
  cbn [mbind result_bind]. intros [= <-]. simpl.
  by eapply mps_entries_has.
Qed.

Lemma mps_lines_has lines rows is_columns f row' col :
  mps_lines lines (rows, is_columns) = Ok f →
  row_has rows row' col → row_has (state_of f).1 row' col.
Proof.
  revert rows is_columns.
  induction lines as [|line lines IH]; intros rows is_columns; cbn [mps_lines].
  { by intros [= <-]. }
  destruct (mps_line line (rows, is_columns)) as [[[rows1 b1]|[rows1 b1]]|] eqn:Hl;
    [| |done]; cbn [mbind result_bind]; intros Hrest Hhas.
  - eapply IH; [exact Hrest|]. by apply (mps_line_has _ _ _ _ _ _ Hl).
  - injection Hrest as <-. by apply (mps_line_has _ _ _ _ _ _ Hl).
Qed.

(** Lines 181-184 turn the rows into the relations of the model, in the
    order of the dict. *)
Lemma relations_foldl (rs : list (list string)) (m : Model) :
  built m →
  built (foldl (fun model ids => create_constraint_relation ids model) m rs)
  ∧ relations (foldl (fun model ids => create_constraint_relation ids model) m rs)
    = relations m ++ rs.
Proof.
  revert m. induction rs as [|ids rs IH]; intros m Hb; simpl.
  { by rewrite app_nil_r. }
  destruct (IH (create_constraint_relation ids m)) as [Hb' ->].
  { by apply built_relation. }
  split; [done|].
  by rewrite create_constraint_relation_relations, <- app_assoc.
Qed.

Lemma model_of_rows_relations rows : relations (model_of_rows rows) = dict_values rows.
Proof.
  unfold model_of_rows.
  by destruct (relations_foldl (dict_values rows) new_model built_new) as [_ ->].
Qed.

Lemma model_of_rows_has rows row col :
  row_has rows row col → ∃ ids, ids ∈ relations (model_of_rows rows) ∧ col ∈ ids.
Proof.
  intros (cols & Hg & Hin). exists cols. split; [|done].
  rewrite model_of_rows_relations. by eapply dict_get_values.
Qed.

Lemma pair_variables_last {A} (tokens : list A) :
  Nat.Odd (length tokens) → last (pair_variables tokens) = last tokens.
Proof.
  induction tokens as [|x|x y tokens IH] using pairs_ind.
  - intros [k Hk]. simpl in Hk. lia.
  - done.
  - intros [k Hk]. simpl in Hk.
    assert (Nat.Odd (length tokens)) as Ho by (exists (k - 1); lia).
    specialize (IH Ho).
    destruct tokens as [|z tokens]; [destruct Ho as [j Hj]; simpl in Hj; lia|].
    cbn [pair_variables] in *. rewrite !last_cons_cons. exact IH.
Qed.
End rows_facts.

(** ** The readers: the claims *)

(** C1 (as the code has it). When the header is a line that starts with a
    letter and lower-cases and trims to one of the constraint keywords, and
    the row after it is a line that does not start with a letter (nor with
    a backslash) and lower-cases and trims to [c1: x + y <= 10], the row adds
    the relation [x, y] to the model read so far; with nothing before the
    header, the model has exactly the variables x and y and the one
    constraint [x, y]. *)
Theorem read_lp_indented_row
    (pre : list string) (header row : string) (h0 r0 : ascii) (m0 : Model) :
  first header = Ok h0 → isalpha h0 = true →
  lower (strip header) ∈ section_con →
  first row = Ok r0 → isalpha r0 = false → startswith backslash row = false →
  lower (strip row) = "c1: x + y <= 10" →
  read_lp pre = Ok m0 →
  ∃ m, read_lp (pre ++ [header; row]) = Ok m
    ∧ relations m = relations m0 ++ [["x"; "y"]]
    ∧ (∀ i, i ∈ dict_keys (variables m) ↔ i ∈ dict_keys (variables m0) ∨ i ∈ ["x"; "y"])
    ∧ (pre = [] → relations m = [["x"; "y"]] ∧ dict_keys (variables m) = ["x"; "y"]).
Proof.
  intros Hh0 Hha Hkey Hr0 Hra Hrb Hrow Hpre.
  destruct (read_lp_total pre) as (m0' & Hpre' & Hbuilt).
  rewrite Hpre in Hpre'. injection Hpre' as <-.
  unfold read_lp in *. rewrite lp_lines_app.
  destruct (lp_lines pre (new_model, None)) as [[m cur]|] eqn:Hlines; [|done].
  cbn [mbind result_bind fst] in Hpre. injection Hpre as ->.
  cbn [mbind result_bind lp_lines].
  rewrite (lp_line_constraint_header header h0 m0 cur Hh0 Hha Hkey).
  cbn [mbind result_bind].
  rewrite (lp_line_row row r0 m0 constraint ["x"; "y"] Hr0 Hra Hrb);
    [|by rewrite Hrow|done].
  cbn [mbind result_bind fst].
  exists (create_constraint_relation ["x"; "y"] m0).
  split; [done|].
  split; [by apply create_constraint_relation_relations|].
  split; [apply create_constraint_relation_keys|].
  intros ->. cbn [lp_lines] in Hlines. injection Hlines as <- <-. done.
Qed.

Lemma read_lp_indented_row_witness :
  ∃ m, read_lp ([] ++ ["Subject To" +:+ nl; " c1: x + y <= 10" +:+ nl]) = Ok m
    ∧ relations m = relations new_model ++ [["x"; "y"]]
    ∧ (∀ i, i ∈ dict_keys (variables m)
            ↔ i ∈ dict_keys (variables new_model) ∨ i ∈ ["x"; "y"])
    ∧ (@nil string = [] →
       relations m = [["x"; "y"]] ∧ dict_keys (variables m) = ["x"; "y"]).
Proof.
  apply (read_lp_indented_row [] ("Subject To" +:+ nl) (" c1: x + y <= 10" +:+ nl)
           "S"%char " "%char new_model).
  - reflexivity.
  - reflexivity.
  - apply (bool_decide_unpack _). vm_compute. exact I.
  - reflexivity.
  - reflexivity.
  - reflexivity.
  - vm_compute. reflexivity.
  - reflexivity.
Defined.

(** C1 as stated fails: the line [c1: x + y <= 10] starts with a letter, so
    line 103 takes it for a header; it names no section, which closes the
    constraint section, and nothing is read from it. *)
Lemma read_lp_unindented_row :
  lower (strip ("subject to" +:+ nl)) ∈ section_con
  ∧ read_lp ["subject to" +:+ nl; "c1: x + y <= 10"] = Ok new_model
  ∧ relations new_model = []
  ∧ dict_keys (variables new_model) = [].
Proof.
  split; [|done]. apply (bool_decide_unpack _). vm_compute. exact I.
Qed.

(** If the loop has reached a line inside COLUMNS, reading goes on from
    there. *)
Lemma read_mps_from pre rest rows :
  mps_lines pre ([], false) = Ok (Next (rows, true)) →
  read_mps (pre ++ rest)
  = f ← mps_lines rest (rows, true); Ok (model_of_rows (state_of f).1).
Proof. intros Hpre. unfold read_mps. by rewrite mps_lines_app, Hpre. Qed.

(** Where [read_mps] raises: at an indented line of the COLUMNS section
    that holds a single token. *)
Lemma read_mps_single_token pre line post rows c0 row :
  mps_lines pre ([], false) = Ok (Next (rows, true)) →
  first line = Ok c0 → isspace c0 = true → split line = [row] →
  read_mps (pre ++ line :: post) = Raise IndexError.
Proof.
  intros Hpre Hf Hsp Hsplit. rewrite (read_mps_from pre _ rows Hpre).
  cbn [mps_lines]. by rewrite (mps_line_single_token line c0 row rows).
Qed.

(** C3. [read_lp] returns a model for every sequence of lines. [read_mps]
    does not: on a COLUMNS section whose row holds the single token ROW1
    it raises [IndexError] at [content[1]] (line 169). *)
Theorem read_lp_total_read_mps_raises :
  (∀ lines, ∃ m, read_lp lines = Ok m)
  ∧ read_mps ["COLUMNS" +:+ nl; " ROW1" +:+ nl] = Raise IndexError.
Proof.
  split.
  - intros lines. destruct (read_lp_total lines) as (m & Hm & _). by exists m.
  - by vm_compute.
Qed.

(** C6. Under a COLUMNS header, an indented line with the tokens
    [ROW1 X1 1.0 X2 2.0] gives the model the one constraint [X1, X2] (of any
    data line, the first token names the row and every other token after it
    is kept, see [mps_line_data]); and an indented line whose second token
    contains MARKER can be left out of the input without changing the
    result. *)
Theorem read_mps_columns_row
    (header line marker t : string) (c0 c1 : ascii) (pre post : list string) :
  startswith "COLUMNS" header = true →
  first line = Ok c0 → isspace c0 = true →
  split line = ["ROW1"; "X1"; "1.0"; "X2"; "2.0"] →
  first marker = Ok c1 → isspace c1 = true →
  split marker !! 1 = Some t → contains "MARKER" t = true →
  (∃ m, read_mps [header; line] = Ok m
     ∧ relations m = [["X1"; "X2"]]
     ∧ dict_keys (variables m) = ["X1"; "X2"])
  ∧ (∀ rows, mps_line line (rows, true)
       = Ok (Next (extend_row rows "ROW1" ["X1"; "X2"], true)))
  ∧ read_mps (pre ++ marker :: post) = read_mps (pre ++ post).
Proof.
  intros Hhdr Hf Hsp Hsplit Hmf Hmsp Ht Hm.
  assert (∀ rows, mps_line line (rows, true)
            = Ok (Next (extend_row rows "ROW1" ["X1"; "X2"], true))) as Hline.
  { intros rows.
    rewrite (mps_line_data line c0 "ROW1" ["X1"; "1.0"; "X2"; "2.0"] rows Hf Hsp Hsplit);
      [done|]. by exists "X1". }
  split; [|split; [exact Hline|]].
  - unfold read_mps. cbn [mps_lines].
    assert (mps_line header ([], false) = Ok (Next ([], true))) as ->.
    { unfold mps_line. by rewrite Hhdr. }
    cbn [mbind result_bind]. rewrite Hline. cbn [mbind result_bind].
    eexists. split; [done|]. by vm_compute.
  - unfold read_mps. rewrite !mps_lines_app.
    destruct (mps_lines pre ([], false)) as [[st|st]|e]; cbn [mbind result_bind];
      [|done..].
    cbn [mps_lines]. by rewrite (mps_line_marker marker c1 t st Hmf Hmsp Ht Hm).
Qed.

Lemma read_mps_columns_row_witness :
  (∃ m, read_mps ["COLUMNS" +:+ nl; "    ROW1 X1 1.0 X2 2.0" +:+ nl] = Ok m
     ∧ relations m = [["X1"; "X2"]]
     ∧ dict_keys (variables m) = ["X1"; "X2"])
  ∧ (∀ rows, mps_line ("    ROW1 X1 1.0 X2 2.0" +:+ nl) (rows, true)
       = Ok (Next (extend_row rows "ROW1" ["X1"; "X2"], true)))
  ∧ read_mps (["COLUMNS" +:+ nl] ++ ("    MARKER 'MARKER' 'INTORG'" +:+ nl)
                :: ["    ROW1 X1 1.0" +:+ nl])
    = read_mps (["COLUMNS" +:+ nl] ++ ["    ROW1 X1 1.0" +:+ nl]).
Proof.
  apply (read_mps_columns_row ("COLUMNS" +:+ nl) ("    ROW1 X1 1.0 X2 2.0" +:+ nl)
           ("    MARKER 'MARKER' 'INTORG'" +:+ nl) "'MARKER'" " "%char " "%char).
  - reflexivity.
  - reflexivity.
  - reflexivity.
  - vm_compute. reflexivity.
  - reflexivity.
  - reflexivity.
  - vm_compute. reflexivity.
  - vm_compute. reflexivity.
Defined.

(** C10. An indented line of the COLUMNS section with an even number of
    tokens, the second of which is no marker, ends in a token without a
    value; that token is the last column appended to the row named by the
    first token, and, when the lines after it are read without an
    exception, a constraint of the model holds it. *)
Theorem read_mps_unpaired_token
    (pre post : list string) (line row : string) (rest : list string)
    (c0 : ascii) (rows : dict string (list string)) :
  mps_lines pre ([], false) = Ok (Next (rows, true)) →
  first line = Ok c0 → isspace c0 = true →
  split line = row :: rest →
  Nat.Even (length (row :: rest)) →
  (∀ t, head rest = Some t → contains "MARKER" t = false) →
  ∃ token rows',
    last rest = Some token
    ∧ mps_line line (rows, true) = Ok (Next (rows', true))
    ∧ (∃ cols, dict_get rows' row = Some cols ∧ last cols = Some token)
    ∧ (∀ f, mps_lines post (rows', true) = Ok f →
         ∃ m, read_mps (pre ++ line :: post) = Ok m
              ∧ ∃ ids, ids ∈ relations m ∧ token ∈ ids).
Proof.
  intros Hpre Hf Hsp Hsplit [k Hk] Hmarker.
  assert (Nat.Odd (length rest)) as Hodd.
  { exists (k - 1). simpl in Hk. lia. }
  destruct rest as [|t rest'] eqn:Hrest; [destruct Hodd as [j Hj]; simpl in Hj; lia|].
  rewrite <- Hrest in *.
  assert (pair_variables rest ≠ []) as Hne by by rewrite Hrest.
  destruct (last rest) as [token|] eqn:Hlast;
    [|by rewrite Hrest, last_cons in Hlast; destruct (last rest')].
  exists token, (extend_row rows row (pair_variables rest)).
  split; [done|]. split.
  { apply (mps_line_data line c0 row rest rows Hf Hsp Hsplit).
    exists t. split; [by rewrite Hrest|]. apply Hmarker. by rewrite Hrest. }
  assert (last (default [] (dict_get rows row) ++ pair_variables rest) = Some token)
    as Hcol.
  { rewrite last_app, (pair_variables_last rest Hodd), Hlast. done. }
  split.
  { eexists. split; [by apply extend_row_get | exact Hcol]. }
  intros f Hpost. rewrite (read_mps_from pre _ rows Hpre). cbn [mps_lines].
  rewrite (mps_line_data line c0 row rest rows Hf Hsp Hsplit);
    [|exists t; split; [by rewrite Hrest | apply Hmarker; by rewrite Hrest]].
  cbn [mbind result_bind]. rewrite Hpost. cbn [mbind result_bind].
  eexists. split; [done|].
  apply (model_of_rows_has _ row token).
  destruct f as [[rows2 b2]|[rows2 b2]];
    apply (mps_lines_has _ _ _ _ row token Hpost);
    (eexists; split; [by apply extend_row_get|]);
    by apply last_Some_elem_of.
Qed.

Lemma read_mps_unpaired_token_witness :
  ∃ token rows',
    last ["X1"; "1.0"; "X2"] = Some token
    ∧ mps_line ("    ROW1 X1 1.0 X2" +:+ nl) ([], true) = Ok (Next (rows', true))
    ∧ (∃ cols, dict_get rows' "ROW1" = Some cols ∧ last cols = Some token)
    ∧ (∀ f, mps_lines ["RHS" +:+ nl] (rows', true) = Ok f →
         ∃ m, read_mps (["COLUMNS" +:+ nl]
                          ++ ("    ROW1 X1 1.0 X2" +:+ nl) :: ["RHS" +:+ nl]) = Ok m
              ∧ ∃ ids, ids ∈ relations m ∧ token ∈ ids).
Proof.
  apply (read_mps_unpaired_token ["COLUMNS" +:+ nl] ["RHS" +:+ nl]
           ("    ROW1 X1 1.0 X2" +:+ nl) "ROW1" ["X1"; "1.0"; "X2"] " "%char []).
  - reflexivity.
  - reflexivity.
  - reflexivity.
  - vm_compute. reflexivity.
  - exists 2. reflexivity.
  - intros t Ht. injection Ht as <-. vm_compute. reflexivity.
Defined.

(** ** The graph *)

Section graph_facts.
Implicit Types (ids : list string) (a b u v x : string).
Implicit Types (edge : string * string) (d : dict (string * string) nat).

(** *** Ordered pairs of ids *)

Lemma edge_of_ordered a b u v : edge_of a b = (u, v) → String.ltb v u = false.
Proof.
  unfold edge_of. destruct (String.ltb a b) eqn:Hab; intros [= <- <-]; [|done].
  unfold String.ltb in *. rewrite String.compare_antisym.
  by destruct (String.compare a b).
Qed.

Lemma edge_of_self a b x : edge_of a b = (x, x) ↔ a = x ∧ b = x.
Proof.
  unfold edge_of. split.
  - destruct (String.ltb a b); by intros [= -> ->].
  - intros [-> ->]. by destruct (String.ltb x x).
Qed.

Lemma edge_of_ends a b a' b' :
  edge_of a b = edge_of a' b' → (a = a' ∧ b = b') ∨ (a = b' ∧ b = a').
Proof.
  unfold edge_of.
  destruct (String.ltb a b), (String.ltb a' b'); intros [= -> ->]; auto.
Qed.

(** *** The dict of edges *)

Lemma dict_keys_get {K V} `{EqDecision K} (t : dict K V) k :
  k ∈ dict_keys t ↔ is_Some (dict_get t k).
Proof.
  destruct (dict_get t k) as [n|] eqn:Hg.
  - split; [by eexists | intros _; by eapply dict_get_Some_keys].
  - apply dict_get_None_keys in Hg. split; [done | by intros [? ?]].
Qed.

Lemma dict_keys_set {K V} `{EqDecision K} (t : dict K V) k n k' :
  k' ∈ dict_keys (dict_set t k n) ↔ k' ∈ dict_keys t ∨ k' = k.
Proof.
  rewrite !dict_keys_get, dict_get_set.
  destruct (decide (k' = k)) as [->|Hne].
  - split; [by right | by eexists].
  - split; [by left | by intros [?|?]].
Qed.

Lemma count_edge_set d edge :
  count_edge d edge = dict_set d edge (default 0 (dict_get d edge) + 1).
Proof. unfold count_edge. by destruct (dict_get d edge). Qed.

Lemma count_edge_keys d edge edge' :
  edge' ∈ dict_keys (count_edge d edge) ↔ edge' ∈ dict_keys d ∨ edge' = edge.
Proof. rewrite count_edge_set. apply dict_keys_set. Qed.

Lemma count_edges_keys d (es : list (string * string)) edge :
  edge ∈ dict_keys (foldl count_edge d es) ↔ edge ∈ dict_keys d ∨ edge ∈ es.
Proof.
  revert d. induction es as [|e es IH]; intros d; simpl.
  - rewrite elem_of_nil. tauto.
  - rewrite IH, count_edge_keys, elem_of_cons. tauto.
Qed.

(** *** The two loops over the positions of a constraint *)

Lemma foldl_bind {A B C} (f : A → B → A) (g : C → list B) (l : list C) (z : A) :
  foldl (fun acc i => foldl f acc (g i)) z l = foldl f z (l ≫= g).
Proof.
  revert z. induction l as [|i l IH]; intros z; csimpl; [done|].
  by rewrite foldl_app, IH.
Qed.

Lemma constraint_edges_visited d ids :
  constraint_edges d ids = foldl count_edge d (visited ids).
Proof.
  unfold constraint_edges, visited.
  rewrite range_step1, Nat.sub_0_r, <- foldl_bind.
  generalize (seq 0 (length ids)). intros l. revert d.
  induction l as [|i l IH]; intros d; simpl; [done|].
  by rewrite range_step1, foldl_fmap, IH.
Qed.

Lemma visited_iff ids edge :
  edge ∈ visited ids ↔
    ∃ i j a b, i < j ∧ ids !! i = Some a ∧ ids !! j = Some b ∧ edge = edge_of a b.
Proof.
  unfold visited. rewrite list_elem_of_bind. split.
  - intros (i & Hin & Hi). apply list_elem_of_fmap in Hin as (j & -> & Hj).
    apply elem_of_seq in Hi, Hj.
    destruct (lookup_lt_is_Some_2 ids i) as [a Ha]; [lia|].
    destruct (lookup_lt_is_Some_2 ids j) as [b Hb]; [lia|].
    exists i, j, a, b. unfold id_nth.
    rewrite (nth_lookup_Some _ _ _ _ Ha), (nth_lookup_Some _ _ _ _ Hb).
    repeat split; [lia | done..].
  - intros (i & j & a & b & Hlt & Ha & Hb & ->).
    pose proof (lookup_lt_Some _ _ _ Hb) as Hj.
    exists i. split; [|apply elem_of_seq; lia].
    apply list_elem_of_fmap. exists j. unfold id_nth.
    rewrite (nth_lookup_Some _ _ _ _ Ha), (nth_lookup_Some _ _ _ _ Hb).
    split; [done|]. apply elem_of_seq. lia.
Qed.

Lemma constraints_edges_keys d (rs : list (list string)) edge :
  edge ∈ dict_keys (foldl constraint_edges d rs) ↔
    edge ∈ dict_keys d ∨ ∃ ids, ids ∈ rs ∧ edge ∈ visited ids.
Proof.
  revert d. induction rs as [|ids rs IH]; intros d; simpl.
  - split; [by left | intros [?|(ids & Hin & _)]; [done | by apply elem_of_nil in Hin]].
  - rewrite IH, constraint_edges_visited, count_edges_keys. split.
    + intros [[?|?]|(ids' & Hin & Hv)]; [by left | right..].
      * exists ids. split; [left | done].
      * exists ids'. split; [by right | done].
    + intros [?|(ids' & Hin & Hv)]; [by left; left|].
      apply elem_of_cons in Hin as [->|Hin]; [by left; right|].
      right. by exists ids'.
Qed.

(** An edge is in the dict when its two ids stand at two positions of
    one constraint. *)
Lemma model_edges_keys m edge :
  edge ∈ dict_keys (model_edges m) ↔ ∃ ids, ids ∈ relations m ∧ edge ∈ visited ids.
Proof.
  unfold model_edges. rewrite constraints_edges_keys. split.
  - intros [Hin|?]; [by apply elem_of_nil in Hin | done].
  - by right.
Qed.

(** The edges added to the graph are the keys of the dict. *)
Lemma plot_graph_edges m weighted u v :
  (∃ w, (u, v, w) ∈ edges (plot_graph m weighted)) ↔ (u, v) ∈ dict_keys (model_edges m).
Proof.
  unfold plot_graph, dict_keys. cbn [edges]. split.
  - intros (w & Hin). apply list_elem_of_fmap in Hin as ([[u' v'] n] & [= -> -> ->] & Hin).
    apply list_elem_of_fmap. by exists (u', v', n).
  - intros Hin. apply list_elem_of_fmap in Hin as ([[u' v'] n] & [= -> ->] & Hin).
    exists (if weighted then n else 1).
    apply list_elem_of_fmap. by exists (u', v', n).
Qed.
End graph_facts.

(** C2 (as the code has it). Every edge of the graph has its smaller id
    first; the graph has the self-loop on an id exactly when a constraint
    of the model lists that id at two positions; so a model whose
    constraints list no id twice gives a graph without self-loops. *)
Theorem plot_graph_self_loops (m : Model) (weighted : bool) :
  (∀ u v w, (u, v, w) ∈ edges (plot_graph m weighted) → String.ltb v u = false)
  ∧ (∀ x, (∃ w, (x, x, w) ∈ edges (plot_graph m weighted))
          ↔ ∃ ids, ids ∈ relations m ∧ listed_twice ids x)
  ∧ (Forall NoDup (relations m) →
     ∀ u v w, (u, v, w) ∈ edges (plot_graph m weighted) → u ≠ v).
Proof.
  assert (∀ x, (∃ w, (x, x, w) ∈ edges (plot_graph m weighted))
               ↔ ∃ ids, ids ∈ relations m ∧ listed_twice ids x) as Hloops.
  { intros x. rewrite plot_graph_edges, model_edges_keys. split.
    - intros (ids & Hin & Hv). exists ids. split; [done|].
      apply visited_iff in Hv as (i & j & a & b & Hlt & Ha & Hb & He).
      symmetry in He. apply edge_of_self in He as [-> ->]. by exists i, j.
    - intros (ids & Hin & i & j & Hlt & Ha & Hb). exists ids. split; [done|].
      apply visited_iff. exists i, j, x, x. repeat split; try done.
      symmetry. by apply edge_of_self. }
  split; [|split; [exact Hloops|]].
  - intros u v w Hin.
    assert ((u, v) ∈ dict_keys (model_edges m)) as Hk
      by (apply (plot_graph_edges m weighted); by exists w).
    apply model_edges_keys in Hk as (ids & _ & Hv).
    apply visited_iff in Hv as (i & j & a & b & _ & _ & _ & He).
    by eapply edge_of_ordered.
  - intros Hnodup u v w Hin ->.
    destruct (proj1 (Hloops v)) as (ids & Hids & i & j & Hlt & Ha & Hb).
    { by exists w. }
    rewrite Forall_forall in Hnodup.
    pose proof (NoDup_lookup ids i j v (Hnodup ids Hids) Ha Hb). lia.
Qed.

(** C2 as stated fails: the row [x + x <= 2] gives the constraint [x, x],
    and lines 207-210 make the pair of its two positions the edge (x, x). *)
Lemma plot_graph_self_loop :
  ∃ m, read_lp ["st" +:+ nl; " c1: x + x <= 2" +:+ nl] = Ok m
    ∧ relations m = [["x"; "x"]]
    ∧ edges (plot_graph m false) = [("x", "x", 1)]
    ∧ edges (plot_graph m true) = [("x", "x", 1)].
Proof. eexists. split; [by vm_compute|]. by vm_compute. Qed.

(** C4. A model with the one constraint [a, b, c] of three distinct ids
    projects to the three edges of the pairs (a, b), (a, c), (b, c), smaller
    id first, each of weight 1; a model with the two constraints [a, b] and
    [a, b] projects to the single edge of (a, b), of weight 2 when weighted
    and of weight 1 when not. *)
Theorem plot_graph_projection (m1 m2 : Model) (a b c : string) :
  a ≠ b → a ≠ c → b ≠ c →
  relations m1 = [[a; b; c]] →
  relations m2 = [[a; b]; [a; b]] →
  (∀ weighted, edges (plot_graph m1 weighted)
     = [((edge_of a b).1, (edge_of a b).2, 1);
        ((edge_of a c).1, (edge_of a c).2, 1);
        ((edge_of b c).1, (edge_of b c).2, 1)])
  ∧ edges (plot_graph m2 true) = [((edge_of a b).1, (edge_of a b).2, 2)]
  ∧ edges (plot_graph m2 false) = [((edge_of a b).1, (edge_of a b).2, 1)].
Proof.
  intros Hab Hac Hbc Hm1 Hm2.
  assert (model_edges m1 = [(edge_of a b, 1); (edge_of a c, 1); (edge_of b c, 1)]) as H1.
  { unfold model_edges. rewrite Hm1. cbn [foldl].
    rewrite constraint_edges_visited.
    change (visited [a; b; c]) with [edge_of a b; edge_of a c; edge_of b c].
    cbn [foldl]. unfold count_edge. cbn [dict_get dict_set].
    destruct (decide (edge_of a c = edge_of a b)) as [He|_].
    { apply edge_of_ends in He as [[_ ?]|[? _]]; congruence. }
    cbn [dict_get dict_set].
    destruct (decide (edge_of a c = edge_of a b)) as [He|_].
    { apply edge_of_ends in He as [[_ ?]|[? _]]; congruence. }
    destruct (decide (edge_of b c = edge_of a b)) as [He|_].
    { apply edge_of_ends in He as [[? _]|[_ ?]]; congruence. }
    destruct (decide (edge_of b c = edge_of a c)) as [He|_].
    { apply edge_of_ends in He as [[? _]|[? _]]; congruence. }
    cbn [dict_get dict_set].
    destruct (decide (edge_of b c = edge_of a b)) as [He|_].
    { apply edge_of_ends in He as [[? _]|[_ ?]]; congruence. }
    destruct (decide (edge_of b c = edge_of a c)) as [He|_].
    { apply edge_of_ends in He as [[? _]|[? _]]; congruence. }
    done. }
  assert (model_edges m2 = [(edge_of a b, 2)]) as H2.
  { unfold model_edges. rewrite Hm2. cbn [foldl].
    rewrite !constraint_edges_visited.
    change (visited [a; b]) with [edge_of a b].
    cbn [foldl]. unfold count_edge. cbn [dict_get dict_set].
    destruct (decide (edge_of a b = edge_of a b)); [|done].
    cbn [dict_set]. by destruct (decide (edge_of a b = edge_of a b)). }
  unfold plot_graph. cbn [edges]. rewrite H1, H2.
  split; [intros weighted; by destruct weighted | done].
Qed.

Lemma plot_graph_projection_witness :
  (∀ weighted,
     edges (plot_graph (create_constraint_relation ["a"; "b"; "c"] new_model) weighted)
     = [("a", "b", 1); ("a", "c", 1); ("b", "c", 1)])
  ∧ edges (plot_graph
             (create_constraint_relation ["a"; "b"]
                (create_constraint_relation ["a"; "b"] new_model)) true)
    = [("a", "b", 2)]
  ∧ edges (plot_graph
             (create_constraint_relation ["a"; "b"]
                (create_constraint_relation ["a"; "b"] new_model)) false)
    = [("a", "b", 1)].
Proof.
  apply (plot_graph_projection
           (create_constraint_relation ["a"; "b"; "c"] new_model)
           (create_constraint_relation ["a"; "b"]
              (create_constraint_relation ["a"; "b"] new_model))
           "a" "b" "c").
  - discriminate.
  - discriminate.
  - discriminate.
  - reflexivity.
  - reflexivity.
Defined.

(** * Further properties of the code *)

(** ** The model: variables and nodes *)

Section variable_facts.
Implicit Types (m : Model) (r : vref) (c : cref) (i j : string).

Lemma dict_set_keys_NoDup {K V} `{EqDecision K} (d : dict K V) k v :
  NoDup (dict_keys d) → NoDup (dict_keys (dict_set d k v)).
Proof.
  unfold dict_keys. induction d as [|[k' v'] d IH]; csimpl.
  - intros _. apply NoDup_singleton.
  - rewrite NoDup_cons. intros [Hnin Hnd].
    destruct (decide (k = k')) as [->|Hne]; csimpl.
    + by apply NoDup_cons.
    + apply NoDup_cons. split; [|by apply IH].
      intros Hin. apply Hnin.
      assert (k' ∈ dict_keys (dict_set d k v)) as Hin' by done.
      apply dict_keys_set in Hin' as [?| ->]; done.
Qed.

Lemma dict_get_entry {K V} `{EqDecision K} (d : dict K V) k v :
  NoDup (dict_keys d) → (k, v) ∈ d → dict_get d k = Some v.
Proof.
  unfold dict_keys. induction d as [|[k' v'] d IH]; csimpl.
  - intros _ Hin. by apply elem_of_nil in Hin.
  - rewrite NoDup_cons. intros [Hnin Hnd] Hin.
    apply elem_of_cons in Hin as [[= -> ->]|Hin].
    + by destruct (decide (k' = k')).
    + destruct (decide (k = k')) as [->|Hne]; [|by apply IH].
      exfalso. apply Hnin. apply list_elem_of_fmap. by exists (k', v).
Qed.

Lemma create_variable_keys_NoDup i m :
  NoDup (dict_keys (variables m)) → NoDup (dict_keys (variables (create_variable i m).2)).
Proof.
  intros Hnd. destruct (dict_get (variables m) i) as [r|] eqn:Hi.
  - by rewrite (create_variable_known i m r Hi).
  - rewrite (create_variable_fresh i m Hi). simpl. by apply dict_set_keys_NoDup.
Qed.

Lemma create_variables_keys_NoDup ids m :
  NoDup (dict_keys (variables m)) →
  NoDup (dict_keys (variables (create_variables ids m).2)).
Proof.
  revert m. induction ids as [|i ids IH]; intros m Hnd; [done|].
  rewrite create_variables_cons. simpl. by apply IH, create_variable_keys_NoDup.
Qed.

Lemma built_keys_NoDup m : built m → NoDup (dict_keys (variables m)).
Proof.
  induction 1 as [|i m _ IH|ids m _ IH].
  - apply NoDup_nil_2.
  - by apply create_variable_keys_NoDup.
  - unfold create_constraint_relation.
    pose proof (create_variables_keys_NoDup ids m IH) as Hnd.
    destruct (create_variables ids m) as [vars m1]; simpl in *.
    by destruct (add_backrefs_fields (length (constraint_objs m1)) vars
      {| variable_objs := variable_objs m1;
         constraint_objs := constraint_objs m1 ++ [mkConstraint vars];
         variables := variables m1;
         constraints := constraints m1 ++ [length (constraint_objs m1)] |})
      as (_ & -> & _).
Qed.

(** The ids of the objects in [variables] are the keys they stand under. *)
Lemma built_values_ids m :
  built m → id_at m <$> dict_values (variables m) = dict_keys (variables m).
Proof.
  intros Hb. destruct (built_invariant m Hb) as [Hk _].
  pose proof (built_keys_NoDup m Hb) as Hnd.
  unfold dict_values, dict_keys. rewrite <- list_fmap_compose.
  apply Forall_fmap_ext_1, Forall_forall. intros [k r] Hin. simpl.
  apply points_to_id_at, Hk. by apply dict_get_entry.
Qed.
End variable_facts.

(** X1. [create_variable] is an upsert: it answers with the reference that
    [variables] then holds under the id, leaves every other key as it was,
    and a second call with the same id gives the same reference and changes
    nothing. *)
Theorem create_variable_upsert (i : string) (m : Model) :
  dict_get (variables (create_variable i m).2) i = Some (create_variable i m).1
  ∧ (∀ j, j ≠ i →
       dict_get (variables (create_variable i m).2) j = dict_get (variables m) j)
  ∧ create_variable i (create_variable i m).2 = create_variable i m.
Proof.
  destruct (dict_get (variables m) i) as [r|] eqn:Hi.
  - rewrite (create_variable_known i m r Hi). simpl.
    split; [done|]. split; [done|]. by apply create_variable_known.
  - rewrite (create_variable_fresh i m Hi). simpl. split; [apply dict_get_set_eq|].
    split; [intros j Hj; by apply dict_get_set_ne|].
    apply create_variable_known. simpl. apply dict_get_set_eq.
Qed.

(** X2. A variable that exists is never replaced: once an id is in
    [variables], [create_variable] and [create_constraint_relation] leave
    the reference stored under it unchanged. *)
Theorem variables_are_kept (m : Model) (i : string) (r : nat) :
  dict_get (variables m) i = Some r →
  (∀ j, dict_get (variables (create_variable j m).2) i = Some r)
  ∧ (∀ ids, dict_get (variables (create_constraint_relation ids m)) i = Some r).
Proof.
  intros Hi.
  assert (∀ j m', dict_get (variables m') i = Some r →
            dict_get (variables (create_variable j m').2) i = Some r) as Hone.
  { intros j m' Hi'. destruct (dict_get (variables m') j) as [r'|] eqn:Hj.
    - by rewrite (create_variable_known j m' r' Hj).
    - rewrite (create_variable_fresh j m' Hj). simpl.
      rewrite dict_get_set_ne; [done | congruence]. }
  split; [intros j; by apply Hone|].
  intros ids. unfold create_constraint_relation.
  assert (dict_get (variables (create_variables ids m).2) i = Some r) as Hall.
  { revert m Hi. induction ids as [|j ids IH]; intros m Hi; [done|].
    rewrite create_variables_cons. simpl. by apply IH, Hone. }
  destruct (create_variables ids m) as [vars m1]; simpl in *.
  by destruct (add_backrefs_fields (length (constraint_objs m1)) vars
    {| variable_objs := variable_objs m1;
       constraint_objs := constraint_objs m1 ++ [mkConstraint vars];
       variables := variables m1;
       constraints := constraints m1 ++ [length (constraint_objs m1)] |})
    as (_ & -> & _).
Qed.

Lemma variables_are_kept_witness :
  (∀ j, dict_get (variables
          (create_variable j (create_constraint_relation ["x"; "y"] new_model)).2) "y"
        = Some 1)
  ∧ (∀ ids, dict_get (variables
              (create_constraint_relation ids
                 (create_constraint_relation ["x"; "y"] new_model))) "y"
            = Some 1).
Proof.
  apply (variables_are_kept (create_constraint_relation ["x"; "y"] new_model) "y" 1).
  reflexivity.
Defined.

(** X3. [create_constraint_relation] on a model built by the two methods
    puts the new relation last and keeps the earlier relations; the ids in
    [variables] afterwards are the earlier ones and those of the relation;
    and the number of constraints grows by one. *)
Theorem create_constraint_relation_appends (ids : list string) (m : Model) :
  built m →
  relations (create_constraint_relation ids m) = relations m ++ [ids]
  ∧ (∀ j, j ∈ dict_keys (variables (create_constraint_relation ids m))
          ↔ j ∈ dict_keys (variables m) ∨ j ∈ ids)
  ∧ length (constraints (create_constraint_relation ids m)) = S (length (constraints m)).
Proof.
  intros Hb. split; [by apply create_constraint_relation_relations|].
  split; [intros j; apply create_constraint_relation_keys|].
  assert (length (relations (create_constraint_relation ids m))
          = S (length (relations m))) as Hlen.
  { rewrite create_constraint_relation_relations by done.
    rewrite length_app. simpl. lia. }
  unfold relations in Hlen. by rewrite !length_fmap in Hlen.
Qed.

Lemma create_constraint_relation_appends_witness :
  relations (create_constraint_relation ["y"; "z"; "y"]
               (create_constraint_relation ["x"; "y"] new_model))
  = relations (create_constraint_relation ["x"; "y"] new_model) ++ [["y"; "z"; "y"]]
  ∧ (∀ j, j ∈ dict_keys (variables (create_constraint_relation ["y"; "z"; "y"]
                                      (create_constraint_relation ["x"; "y"] new_model)))
          ↔ j ∈ dict_keys (variables (create_constraint_relation ["x"; "y"] new_model))
            ∨ j ∈ ["y"; "z"; "y"])
  ∧ length (constraints (create_constraint_relation ["y"; "z"; "y"]
                           (create_constraint_relation ["x"; "y"] new_model)))
    = S (length (constraints (create_constraint_relation ["x"; "y"] new_model))).
Proof.
  apply (create_constraint_relation_appends ["y"; "z"; "y"]
           (create_constraint_relation ["x"; "y"] new_model)).
  apply built_relation, built_new.
Defined.

(** X4. For a model built by the two methods, [plot] adds one node per
    variable: the nodes are the keys of [variables] in their order, and no
    id is added twice. *)
Theorem plot_graph_nodes (m : Model) (weighted : bool) :
  built m →
  nodes (plot_graph m weighted) = dict_keys (variables m)
  ∧ NoDup (nodes (plot_graph m weighted)).
Proof.
  intros Hb. unfold plot_graph. cbn [nodes]. rewrite (built_values_ids m Hb).
  split; [done | by apply built_keys_NoDup].
Qed.

Lemma plot_graph_nodes_witness :
  nodes (plot_graph (create_constraint_relation ["y"; "x"; "y"] new_model) true)
  = dict_keys (variables (create_constraint_relation ["y"; "x"; "y"] new_model))
  ∧ NoDup (nodes (plot_graph (create_constraint_relation ["y"; "x"; "y"] new_model) true)).
Proof.
  apply (plot_graph_nodes (create_constraint_relation ["y"; "x"; "y"] new_model) true).
  apply built_relation, built_new.
Defined.

(** ** The model: back-references *)

Section backref_facts.
Implicit Types (m : Model) (r : vref) (c : cref) (i : string).

Lemma occurrences_nil {A} `{EqDecision A} (x : A) : occurrences x [] = 0.
Proof. done. Qed.

Lemma occurrences_app {A} `{EqDecision A} (x : A) (l k : list A) :
  occurrences x (l ++ k) = occurrences x l + occurrences x k.
Proof. unfold occurrences. by rewrite filter_app, length_app. Qed.

Lemma occurrences_cons {A} `{EqDecision A} (x y : A) (l : list A) :
  occurrences x (y :: l) = (if decide (y = x) then 1 else 0) + occurrences x l.
Proof.
  unfold occurrences. destruct (decide (y = x)) as [Heq|Hne].
  - by rewrite filter_cons_True.
  - by rewrite filter_cons_False.
Qed.

Lemma occurrences_zero {A} `{EqDecision A} (x : A) (l : list A) :
  occurrences x l = 0 ↔ x ∉ l.
Proof.
  induction l as [|y l IH].
  - split; [intros _; apply not_elem_of_nil | done].
  - rewrite occurrences_cons, not_elem_of_cons.
    destruct (decide (y = x)) as [->|Hne]; [split; [lia | tauto]|].
    rewrite <- IH. split; [intros ?; split; [congruence | lia] | intros [_ ?]; lia].
Qed.

Lemma occurrences_pos {A} `{EqDecision A} (x : A) (l : list A) :
  0 < occurrences x l ↔ x ∈ l.
Proof.
  destruct (decide (x ∈ l)) as [Hin|Hnin].
  - split; [done|]. intros _.
    destruct (occurrences x l) eqn:Ho; [|lia]. by apply occurrences_zero in Ho.
  - split; [|done]. apply occurrences_zero in Hnin. lia.
Qed.

Lemma backrefs_at_out_of_range m r :
  length (variable_objs m) ≤ r → backrefs_at m r = [].
Proof. intros Hr. unfold backrefs_at. by rewrite lookup_ge_None_2. Qed.

Lemma create_variable_backrefs i m r :
  backrefs_at (create_variable i m).2 r = backrefs_at m r.
Proof.
  destruct (dict_get (variables m) i) as [r'|] eqn:Hi.
  - by rewrite (create_variable_known i m r' Hi).
  - rewrite (create_variable_fresh i m Hi). unfold backrefs_at. simpl.
    destruct (decide (r < length (variable_objs m))) as [Hlt|Hge].
    + by rewrite lookup_app_l.
    + rewrite (lookup_ge_None_2 (variable_objs m)) by lia.
      destruct (decide (r = length (variable_objs m))) as [->|Hne].
      * by rewrite lookup_app_r, Nat.sub_diag.
      * rewrite lookup_ge_None_2; [done|]. rewrite length_app. simpl. lia.
Qed.

Lemma create_variable_length i m :
  length (variable_objs m) ≤ length (variable_objs (create_variable i m).2).
Proof.
  unfold create_variable. destruct (dict_get (variables m) i); simpl; [done|].
  rewrite length_app. lia.
Qed.

Lemma create_variables_backrefs ids m r :
  backrefs_at (create_variables ids m).2 r = backrefs_at m r.
Proof.
  revert m. induction ids as [|i ids IH]; intros m; [done|].
  rewrite create_variables_cons. simpl. by rewrite IH, create_variable_backrefs.
Qed.

Lemma create_variables_length ids m :
  length (variable_objs m) ≤ length (variable_objs (create_variables ids m).2).
Proof.
  revert m. induction ids as [|i ids IH]; intros m; [done|].
  rewrite create_variables_cons. simpl.
  etrans; [apply (create_variable_length i m) | apply IH].
Qed.

Lemma add_backref_length c m r :
  length (variable_objs (add_backref c m r)) = length (variable_objs m).
Proof. unfold add_backref. simpl. apply length_alter. Qed.

Lemma add_backref_backrefs c m r0 r :
  r0 < length (variable_objs m) →
  backrefs_at (add_backref c m r0) r
  = backrefs_at m r ++ (if decide (r0 = r) then [c] else []).
Proof.
  intros Hr0. unfold backrefs_at, add_backref. simpl.
  destruct (decide (r0 = r)) as [->|Hne].
  - rewrite list_lookup_alter_eq.
    destruct (lookup_lt_is_Some_2 _ _ Hr0) as [v ->]. done.
  - rewrite list_lookup_alter_ne by done. by rewrite app_nil_r.
Qed.

Lemma add_backrefs_length c rs m :
  length (variable_objs (foldl (add_backref c) m rs)) = length (variable_objs m).
Proof.
  revert m. induction rs as [|r rs IH]; intros m; simpl; [done|].
  by rewrite IH, add_backref_length.
Qed.

(** Each occurrence of a variable in the new constraint appends the
    constraint once more to the variable. *)
Lemma add_backrefs_occurrences c rs m r c' :
  Forall (fun r0 => r0 < length (variable_objs m)) rs →
  occurrences c' (backrefs_at (foldl (add_backref c) m rs) r)
  = occurrences c' (backrefs_at m r)
    + (if decide (c = c') then occurrences r rs else 0).
Proof.
  revert m. induction rs as [|r0 rs IH]; intros m Hall; simpl.
  { destruct (decide (c = c')); rewrite ?occurrences_nil; lia. }
  inversion Hall as [|? ? Hr0 Hrs]; subst.
  rewrite IH by (eapply Forall_impl; [exact Hrs|];
                 intros ? ?; by rewrite add_backref_length).
  rewrite (add_backref_backrefs c m r0 r Hr0), occurrences_app, occurrences_cons.
  destruct (decide (r0 = r)) as [->|Hne]; destruct (decide (c = c')) as [->|Hc];
    rewrite ?occurrences_cons, ?occurrences_nil;
    repeat (destruct (decide _)); try done; lia.
Qed.

Lemma variables_at_out_of_range m c :
  length (constraint_objs m) ≤ c → variables_at m c = [].
Proof. intros Hc. unfold variables_at. by rewrite lookup_ge_None_2. Qed.

Lemma create_variable_backrefs_invariant i m :
  backrefs_consistent m ∧ refs_in_range m →
  backrefs_consistent (create_variable i m).2 ∧ refs_in_range (create_variable i m).2.
Proof.
  intros [Hc Hr]. destruct (create_variable_constraints i m) as [_ Hco].
  split.
  - intros r c. rewrite create_variable_backrefs. unfold variables_at.
    rewrite Hco. apply Hc.
  - intros c r. unfold variables_at. rewrite Hco. intros Hin.
    pose proof (Hr c r Hin). pose proof (create_variable_length i m). lia.
Qed.

Lemma create_constraint_relation_backrefs_invariant ids m :
  keyed m → backrefs_consistent m ∧ refs_in_range m →
  backrefs_consistent (create_constraint_relation ids m)
  ∧ refs_in_range (create_constraint_relation ids m).
Proof.
  intros Hk [Hc Hr]. unfold create_constraint_relation.
  destruct (create_variables_result ids m Hk) as [Hres _].
  pose proof (create_variables_constraints ids m) as [_ Hco].
  pose proof (create_variables_length ids m) as Hlen.
  assert (∀ r, backrefs_at (create_variables ids m).2 r = backrefs_at m r) as Hb
    by (intros r; apply create_variables_backrefs).
  destruct (create_variables ids m) as [vars m1]; simpl in *.
  assert (Forall (fun r => r < length (variable_objs m1)) vars) as Hvars.
  { clear -Hres. induction Hres as [|r i rs is' (v & Hv & _) _ IH]; constructor.
    - by eapply lookup_lt_Some.
    - done. }
  set (c := length (constraint_objs m1)).
  set (m2 := {| variable_objs := variable_objs m1;
                constraint_objs := constraint_objs m1 ++ [mkConstraint vars];
                variables := variables m1;
                constraints := constraints m1 ++ [c] |}).
  destruct (add_backrefs_fields c vars m2) as (Hf1 & _ & _).
  assert (∀ c', variables_at (foldl (add_backref c) m2 vars) c'
                = if decide (c' = c) then vars else variables_at m c') as Hat.
  { intros c'. unfold variables_at. rewrite Hf1. simpl. subst c. rewrite Hco.
    destruct (decide (c' = length (constraint_objs m))) as [->|Hne].
    - by rewrite lookup_app_r, Nat.sub_diag.
    - destruct (decide (c' < length (constraint_objs m))) as [Hlt|Hge].
      + by rewrite lookup_app_l.
      + rewrite !lookup_ge_None_2; [done | lia |]. rewrite length_app. simpl. lia. }
  split.
  - intros r c'. rewrite (add_backrefs_occurrences c vars m2 r c' Hvars), Hat.
    unfold backrefs_at at 1. simpl. fold (backrefs_at m1 r). rewrite Hb, Hc.
    destruct (decide (c = c')) as [<-|Hne].
    + destruct (decide (c = c)); [|done].
      rewrite (variables_at_out_of_range m c), occurrences_nil; [done|].
      subst c. by rewrite Hco.
    + destruct (decide (c' = c)); [congruence | lia].
  - intros c' r. rewrite Hat, add_backrefs_length. simpl.
    destruct (decide (c' = c)).
    + intros Hin. rewrite Forall_forall in Hvars. by apply Hvars.
    + intros Hin. pose proof (Hr c' r Hin). lia.
Qed.

Lemma built_backrefs m : built m → backrefs_consistent m ∧ refs_in_range m.
Proof.
  induction 1 as [|i m _ IH|ids m Hb IH].
  - split; [intros r c | intros c r]; unfold backrefs_at, variables_at; simpl.
    + done.
    + intros Hin. by apply elem_of_nil in Hin.
  - by apply create_variable_backrefs_invariant.
  - apply create_constraint_relation_backrefs_invariant; [|done].
    by destruct (built_invariant m Hb).
Qed.
End backref_facts.

(** X5. In a model built by the two methods, the back-references mirror
    the constraints: the list [constraints] of a variable holds a constraint
    as many times as the list [variables] of that constraint holds the
    variable (so a variable named twice in a row is appended to twice), and
    in particular holds it exactly when the constraint holds the
    variable. *)
Theorem backrefs_mirror_constraints (m : Model) :
  built m →
  (∀ r c, occurrences c (backrefs_at m r) = occurrences r (variables_at m c))
  ∧ (∀ r c, c ∈ backrefs_at m r ↔ r ∈ variables_at m c).
Proof.
  intros Hb. destruct (built_backrefs m Hb) as [Hc _].
  split; [exact Hc|].
  intros r c. by rewrite <- !occurrences_pos, Hc.
Qed.

Lemma backrefs_mirror_constraints_witness :
  (∀ r c, occurrences c (backrefs_at
            (create_constraint_relation ["x"; "y"; "x"]
               (create_constraint_relation ["y"] new_model)) r)
          = occurrences r (variables_at
              (create_constraint_relation ["x"; "y"; "x"]
                 (create_constraint_relation ["y"] new_model)) c))
  ∧ (∀ r c, c ∈ backrefs_at
              (create_constraint_relation ["x"; "y"; "x"]
                 (create_constraint_relation ["y"] new_model)) r
            ↔ r ∈ variables_at
                (create_constraint_relation ["x"; "y"; "x"]
                   (create_constraint_relation ["y"] new_model)) c).
Proof.
  apply (backrefs_mirror_constraints
           (create_constraint_relation ["x"; "y"; "x"]
              (create_constraint_relation ["y"] new_model))).
  apply built_relation, built_relation, built_new.
Defined.

(** ** The LP reader: what is skipped and what is read *)

Section lp_more_facts.
Implicit Types (line s : string) (m : Model) (cur : option section).

Lemma lp_line_comment line st : startswith backslash line = true → lp_line line st = Ok st.
Proof. intros Hc. unfold lp_line. destruct st as [m cur]. by rewrite Hc. Qed.

Lemma lp_line_blank line st : blank line → lp_line line st = Ok st.
Proof.
  intros Hb. unfold lp_line. destruct st as [m cur].
  destruct (startswith backslash line); [done|].
  apply strip_blank in Hb. by rewrite Hb.
Qed.

Lemma lp_lines_skip pre line post st :
  (∀ st', lp_line line st' = Ok st') →
  lp_lines (pre ++ line :: post) st = lp_lines (pre ++ post) st.
Proof.
  intros Hskip. rewrite !lp_lines_app.
  destruct (lp_lines pre st) as [st'|e]; cbn [mbind result_bind]; [|done].
  cbn [lp_lines]. by rewrite Hskip.
Qed.

(** Outside a section, a line that names no section leaves the state as
    it is. *)
Lemma lp_line_no_section line m :
  lower (strip line) ∉ section_obj → lower (strip line) ∉ section_con →
  lp_line line (m, None) = Ok (m, None).
Proof.
  intros Ho Hc. unfold lp_line.
  destruct (startswith backslash line); [done|].
  destruct (len (lower (strip line)) =? 0) eqn:Hlen; [done|].
  rewrite len_lower in Hlen. destruct (first_nonblank line Hlen) as [c0 ->].
  cbn [mbind result_bind]. destruct (isalpha c0); [|done].
  by rewrite !bool_decide_eq_false_2.
Qed.

Lemma lp_lines_no_section lines m :
  Forall names_no_section lines →
  lp_lines lines (m, None) = Ok (m, None).
Proof.
  induction 1 as [|line lines [Ho Hc] _ IH]; [done|].
  cbn [lp_lines]. by rewrite (lp_line_no_section line m Ho Hc).
Qed.

Lemma lp_line_objective_header header c0 m cur :
  first header = Ok c0 → isalpha c0 = true →
  lower (strip header) ∈ section_obj →
  lp_line header (m, cur) = Ok (m, Some objective).
Proof.
  intros Hf Ha Hin. destruct header as [|c rest]; [done|].
  injection Hf as ->. unfold lp_line.
  rewrite (startswith_backslash_alpha c0 rest Ha).
  assert ((len (lower (strip (String c0 rest))) =? 0) = false) as ->.
  { unfold section_obj in Hin. rewrite !elem_of_cons, elem_of_nil in Hin.
    destruct Hin as [->|[->|[->|[->|[->|[->|[]]]]]]]; done. }
  cbn [first mbind result_bind]. rewrite Ha.
  by rewrite bool_decide_eq_true_2.
Qed.

(** A row of an open section: the relation of its variables, if it has
    any. *)
Lemma lp_line_section_row row c0 m sec vs :
  first row = Ok c0 → isalpha c0 = false →
  startswith backslash row = false →
  lp_variables (lower (strip row)) = Ok vs →
  lp_line row (m, Some sec)
  = Ok (match vs with [] => m | _ => create_constraint_relation vs m end, Some sec).
Proof.
  intros Hf Ha Hb Hvs. unfold lp_line. rewrite Hb.
  destruct (len (lower (strip row)) =? 0) eqn:Hlen.
  { apply Nat.eqb_eq, len_0 in Hlen. rewrite Hlen in Hvs.
    vm_compute in Hvs. by injection Hvs as <-. }
  rewrite Hf. cbn [mbind result_bind]. rewrite Ha, Hvs. cbn [mbind result_bind].
  by destruct vs.
Qed.

(** *** Case folding *)

Lemma lower_char_idem c : lower_char (lower_char c) = lower_char c.
Proof. by destruct c as [[] [] [] [] [] [] [] []]. Qed.

Lemma lower_is_lower s : is_lower (lower s).
Proof.
  unfold is_lower. induction s as [|c s IH]; simpl; [done|].
  by rewrite lower_char_idem, IH.
Qed.

Lemma is_lower_chars s : is_lower s ↔ Forall (fun c => lower_char c = c) (chars s).
Proof.
  unfold is_lower. induction s as [|c s IH]; simpl.
  - split; [constructor | done].
  - rewrite Forall_cons, <- IH. split; [by intros [= -> ->] | by intros [-> ->]].
Qed.

(** *** The characters of slices and words are characters of the string *)

Lemma slice_to_chars (P : ascii → Prop) k s :
  Forall P (chars s) → Forall P (chars (slice_to k s)).
Proof.
  revert k. induction s as [|c s IH]; intros [|k]; simpl; try constructor.
  - by inversion H.
  - inversion H. by apply IH.
Qed.

Lemma slice_from_chars (P : ascii → Prop) k s :
  Forall P (chars s) → Forall P (chars (slice_from k s)).
Proof.
  revert k. induction s as [|c s IH]; intros [|k]; simpl; try done.
  intros H. inversion H. by apply IH.
Qed.

Lemma split_go_chars (P : ascii → Prop) s :
  Forall P (chars s) →
  Forall P (chars (split_go s).1)
  ∧ Forall (fun w => Forall P (chars w)) (split_go s).2.
Proof.
  induction s as [|c s IH]; simpl.
  { intros _. split; constructor. }
  intros H. inversion H as [|? ? Hc Hs]; subst.
  destruct (IH Hs) as [Hw Hws]. destruct (split_go s) as [w ws]. simpl in *.
  destruct (isspace c); simpl.
  - split; [constructor|]. destruct w; simpl; [done | by constructor].
  - split; [by constructor | done].
Qed.

Lemma split_chars (P : ascii → Prop) s :
  Forall P (chars s) → Forall (fun w => Forall P (chars w)) (split s).
Proof.
  intros H. destruct (split_go_chars P s H) as [Hw Hws]. unfold split.
  destruct (split_go s) as [w ws]. simpl in *.
  destruct w; simpl; [done | by constructor].
Qed.

(** The variables read from a lower-case row are lower-case identifiers. *)
Lemma lp_variables_ids s vs :
  is_lower s → lp_variables s = Ok vs → Forall lp_id vs.
Proof.
  intros Hs%is_lower_chars. unfold lp_variables.
  set (P := fun c => lower_char c = c) in *.
  assert (∃ s1, Forall P (chars s1) ∧
            (if contains backslash s then k ← index backslash s; Ok (slice_to k s)
             else Ok s) = Ok s1) as (s1 & Hs1 & ->).
  { destruct (contains backslash s) eqn:Hb; [|by exists s].
    destruct (index_guarded _ _ Hb) as [k ->]. cbn [mbind result_bind].
    eexists. split; [|done]. by apply slice_to_chars. }
  cbn [mbind result_bind].
  assert (∃ s2, Forall P (chars s2) ∧
            (if contains ":" s1 then k ← index ":" s1; Ok (slice_from (k + 1) s1)
             else Ok s1) = Ok s2) as (s2 & Hs2 & ->).
  { destruct (contains ":" s1) eqn:Hc; [|by exists s1].
    destruct (index_guarded _ _ Hc) as [k ->]. cbn [mbind result_bind].
    eexists. split; [|done]. by apply slice_from_chars. }
  cbn [mbind result_bind]. intros [= <-].
  apply Forall_forall. intros w Hw. apply list_elem_of_filter in Hw as [Hv Hin].
  split; [done|]. apply is_lower_chars.
  pose proof (split_chars P s2 Hs2) as Hall. rewrite Forall_forall in Hall. by apply Hall.
Qed.

Lemma lp_line_model_ok line m cur m' cur' :
  lp_line line (m, cur) = Ok (m', cur') → lp_model_ok m → lp_model_ok m'.
Proof.
  unfold lp_line.
  destruct (startswith backslash line); [by intros [= <- <-]|].
  destruct (len (lower (strip line)) =? 0); [by intros [= <- <-]|].
  destruct (first line) as [c0|]; [|done]. cbn [mbind result_bind].
  destruct (isalpha c0).
  { repeat case_bool_decide; by intros [= <- <-]. }
  destruct cur as [sec|]; [|by intros [= <- <-]].
  destruct (lp_variables (lower (strip line))) as [vs|] eqn:Hvs; [|done].
  cbn [mbind result_bind].
  destruct (0 <? length vs) eqn:Hlen; [|by intros [= <- <-]].
  intros [= <- <-] (Hb & Hrel & Hkeys).
  pose proof (lp_variables_ids _ vs (lower_is_lower _) Hvs) as Hids.
  split; [by apply built_relation|]. split.
  - rewrite create_constraint_relation_relations by done.
    apply Forall_app. split; [done|]. constructor; [|done].
    split; [|done]. intros ->. done.
  - apply Forall_forall. intros j Hj.
    apply create_constraint_relation_keys in Hj as [Hj|Hj].
    + rewrite Forall_forall in Hkeys. by apply Hkeys.
    + rewrite Forall_forall in Hids. by apply Hids.
Qed.

Lemma lp_lines_model_ok lines m cur m' cur' :
  lp_lines lines (m, cur) = Ok (m', cur') → lp_model_ok m → lp_model_ok m'.
Proof.
  revert m cur. induction lines as [|line lines IH]; intros m cur; cbn [lp_lines].
  { by intros [= <- <-]. }
  destruct (lp_line line (m, cur)) as [[m1 cur1]|] eqn:Hl; [|done].
  cbn [mbind result_bind]. intros Hrest Hok.
  eapply IH; [exact Hrest|]. by eapply lp_line_model_ok.
Qed.
End lp_more_facts.

(** X6. Comment lines (first character a backslash) and blank lines can
    be taken out of the input of [read_lp], wherever they stand, without
    changing the result: they neither add a relation nor change the
    section. *)
Theorem read_lp_skips_comments_and_blanks (pre post : list string) (line : string) :
  startswith backslash line = true ∨ blank line →
  read_lp (pre ++ line :: post) = read_lp (pre ++ post).
Proof.
  intros Hline. unfold read_lp. rewrite lp_lines_skip; [done|].
  intros st. destruct Hline; [by apply lp_line_comment | by apply lp_line_blank].
Qed.

Lemma read_lp_skips_comments_and_blanks_witness :
  read_lp (["max" +:+ nl] ++ (backslash +:+ " objective" +:+ nl) :: [" x + y" +:+ nl])
  = read_lp (["max" +:+ nl] ++ [" x + y" +:+ nl]).
Proof.
  apply (read_lp_skips_comments_and_blanks
           ["max" +:+ nl] [" x + y" +:+ nl] (backslash +:+ " objective" +:+ nl)).
  left. reflexivity.
Defined.

(** X7. Rows are read only inside a section: when no line of the input
    lower-cases and trims to an objective or constraint keyword, [read_lp]
    returns the empty model, whatever the lines hold. *)
Theorem read_lp_without_section (lines : list string) :
  Forall names_no_section lines →
  read_lp lines = Ok new_model.
Proof.
  intros Hall. unfold read_lp. by rewrite (lp_lines_no_section lines new_model Hall).
Qed.

Lemma read_lp_without_section_witness :
  read_lp [" c1: x + y <= 10" +:+ nl; "bounds" +:+ nl; " x <= 4" +:+ nl; "end" +:+ nl]
  = Ok new_model.
Proof.
  apply (read_lp_without_section
           [" c1: x + y <= 10" +:+ nl; "bounds" +:+ nl; " x <= 4" +:+ nl; "end" +:+ nl]).
  repeat constructor; apply (bool_decide_eq_false_1 (_ ∈ _)); vm_compute; reflexivity.
Defined.

(** X8. A line that starts with a letter and names no section (such as
    [bounds], [end], or an unindented row) closes the section that was open:
    the rows after it are dropped until a section keyword comes, so the
    result is the model read before it. *)
Theorem read_lp_header_closes_section
    (pre rows : list string) (header : string) (c0 : ascii) (m0 : Model) :
  read_lp pre = Ok m0 →
  first header = Ok c0 → isalpha c0 = true →
  lower (strip header) ∉ section_obj → lower (strip header) ∉ section_con →
  Forall names_no_section rows →
  read_lp (pre ++ header :: rows) = Ok m0.
Proof.
  intros Hpre Hf Ha Ho Hc Hrows. unfold read_lp in *. rewrite lp_lines_app.
  destruct (lp_lines pre (new_model, None)) as [[m cur]|]; [|done].
  cbn [mbind result_bind fst] in Hpre. injection Hpre as ->.
  cbn [mbind result_bind lp_lines].
  rewrite (lp_line_other_header header c0 m0 cur Hf Ha Ho Hc).
  cbn [mbind result_bind]. by rewrite (lp_lines_no_section rows m0 Hrows).
Qed.

Lemma read_lp_header_closes_section_witness :
  read_lp (["st" +:+ nl; " c1: x + y <= 10" +:+ nl]
             ++ ("bounds" +:+ nl) :: [" x + z <= 4" +:+ nl])
  = Ok (create_constraint_relation ["x"; "y"] new_model).
Proof.
  apply (read_lp_header_closes_section
           ["st" +:+ nl; " c1: x + y <= 10" +:+ nl] [" x + z <= 4" +:+ nl]
           ("bounds" +:+ nl) "b"%char).
  - reflexivity.
  - reflexivity.
  - reflexivity.
  - apply (bool_decide_eq_false_1 (_ ∈ _)). vm_compute. reflexivity.
  - apply (bool_decide_eq_false_1 (_ ∈ _)). vm_compute. reflexivity.
  - repeat constructor; apply (bool_decide_eq_false_1 (_ ∈ _)); vm_compute; reflexivity.
Defined.

(** X9. Whatever the input, the model that [read_lp] returns has no empty
    constraint, and every id in its constraints and in [variables] passes
    [is_variable] and is in lower case (the reader folds case, so [X] and
    [x] are one variable). *)
Theorem read_lp_ids (lines : list string) :
  ∃ m, read_lp lines = Ok m
    ∧ Forall (fun ids => ids ≠ [] ∧ Forall lp_id ids) (relations m)
    ∧ Forall lp_id (dict_keys (variables m)).
Proof.
  unfold read_lp.
  destruct (lp_lines_total lines new_model None) as (m & cur & Hl & _).
  rewrite Hl. exists m. split; [done|].
  assert (lp_model_ok new_model) as Hnew.
  { split; [apply built_new|]. split; constructor. }
  by destruct (lp_lines_model_ok lines new_model None m cur Hl Hnew) as (_ & ? & ?).
Qed.

(** X10. The objective section is read like the constraint section: after
    a header that starts with a letter and names either section, a row that
    starts with neither a letter nor a backslash adds the relation of the
    variables on it, and adds nothing when it names no variable. *)
Theorem read_lp_section_row
    (pre : list string) (header row : string) (h0 r0 : ascii)
    (vs : list string) (m0 : Model) :
  read_lp pre = Ok m0 →
  first header = Ok h0 → isalpha h0 = true →
  lower (strip header) ∈ section_obj ∨ lower (strip header) ∈ section_con →
  first row = Ok r0 → isalpha r0 = false → startswith backslash row = false →
  lp_variables (lower (strip row)) = Ok vs →
  read_lp (pre ++ [header; row])
  = Ok (match vs with [] => m0 | _ => create_constraint_relation vs m0 end).
Proof.
  intros Hpre Hh0 Hha Hkey Hr0 Hra Hrb Hvs.
  unfold read_lp in *. rewrite lp_lines_app.
  destruct (lp_lines pre (new_model, None)) as [[m cur]|]; [|done].
  cbn [mbind result_bind fst] in Hpre. injection Hpre as ->.
  cbn [mbind result_bind lp_lines].
  destruct Hkey as [Hkey|Hkey].
  - rewrite (lp_line_objective_header header h0 m0 cur Hh0 Hha Hkey).
    cbn [mbind result_bind].
    by rewrite (lp_line_section_row row r0 m0 objective vs Hr0 Hra Hrb Hvs).
  - rewrite (lp_line_constraint_header header h0 m0 cur Hh0 Hha Hkey).
    cbn [mbind result_bind].
    by rewrite (lp_line_section_row row r0 m0 constraint vs Hr0 Hra Hrb Hvs).
Qed.

Lemma read_lp_section_row_witness :
  read_lp ([] ++ ["Minimize" +:+ nl; " obj: 3 X + 2 y" +:+ nl])
  = Ok (create_constraint_relation ["x"; "y"] new_model).
Proof.
  apply (read_lp_section_row [] ("Minimize" +:+ nl) (" obj: 3 X + 2 y" +:+ nl)
           "M"%char " "%char ["x"; "y"] new_model).
  - reflexivity.
  - reflexivity.
  - reflexivity.
  - left. apply (bool_decide_unpack _). vm_compute. exact I.
  - reflexivity.
  - reflexivity.
  - reflexivity.
  - vm_compute. reflexivity.
Defined.

(** ** The MPS reader: the section and its rows *)

Section mps_more_facts.
Implicit Types (line row col : string) (rows : dict string (list string)).

Lemma mps_lines_before_columns lines rows :
  Forall (fun line => startswith "COLUMNS" line = false) lines →
  mps_lines lines (rows, false) = Ok (Next (rows, false)).
Proof.
  induction 1 as [|line lines Hl _ IH]; [done|].
  cbn [mps_lines]. unfold mps_line. rewrite Hl. cbn [negb mbind result_bind]. exact IH.
Qed.

Lemma nonspace_nonblank c0 rest : isspace c0 = false → (len (strip (String c0 rest)) =? 0) = false.
Proof.
  intros Hsp. apply Nat.eqb_neq. intros Hlen.
  apply len_0, strip_blank in Hlen. inversion Hlen; congruence.
Qed.

(** A line of the COLUMNS section that is not indented ends the loop. *)
Lemma mps_line_break line c0 rows :
  first line = Ok c0 → isspace c0 = false → startswith "COLUMNS" line = false →
  mps_line line (rows, true) = Ok (Break (rows, true)).
Proof.
  intros Hf Hsp Hc. destruct line as [|c rest]; [done|]. injection Hf as ->.
  unfold mps_line. rewrite Hc, (nonspace_nonblank c0 rest Hsp).
  cbn [negb first mbind result_bind]. by rewrite Hsp.
Qed.

Lemma split_go_nil s : split_go s = (EmptyString, []) → blank s.
Proof.
  unfold blank. induction s as [|c s IH]; simpl; [constructor|].
  destruct (split_go s) as [w ws]. destruct (isspace c) eqn:Hc; [|done].
  intros [= Hpush]. constructor; [done|]. apply IH.
  destruct w; simpl in Hpush; by subst.
Qed.

Lemma split_nil_blank s : split s = [] → blank s.
Proof.
  unfold split. intros Hs. apply split_go_nil.
  destruct (split_go s) as [w ws]. destruct w; simpl in Hs; by subst.
Qed.

(** The only exception of a turn of the loop: [IndexError], at an indented
    line of the section with a single token. *)
Lemma mps_line_raises line rows is_columns e :
  mps_line line (rows, is_columns) = Raise e →
  e = IndexError
  ∧ ∃ c0 token, first line = Ok c0 ∧ isspace c0 = true ∧ split line = [token].
Proof.
  unfold mps_line.
  destruct (startswith "COLUMNS" line); [done|].
  destruct (negb is_columns); [done|].
  destruct (len (strip line) =? 0) eqn:Hlen; [done|].
  destruct (first_nonblank line Hlen) as [c0 Hf]. rewrite Hf.
  cbn [mbind result_bind].
  destruct (isspace c0) eqn:Hsp; [|done]. cbn [negb].
  rewrite content_split.
  destruct (split line) as [|w [|c1 rest]] eqn:Hsplit.
  - apply split_nil_blank, strip_blank in Hsplit. by rewrite Hsplit in Hlen.
  - cbn. intros [= <-]. split; [done|]. by exists c0, w.
  - cbn [item lookup list_lookup mbind result_bind].
    destruct (contains "MARKER" c1); [done|].
    pose proof (mps_entries_from w (c1 :: rest) [w] rows) as He.
    change ([w] ++ c1 :: rest) with (w :: c1 :: rest) in He.
    change (length [w]) with 1 in He. by rewrite He.
Qed.

Lemma mps_lines_raises lines rows is_columns e :
  mps_lines lines (rows, is_columns) = Raise e →
  e = IndexError
  ∧ ∃ line c0 token,
      line ∈ lines ∧ first line = Ok c0 ∧ isspace c0 = true ∧ split line = [token].
Proof.
  revert rows is_columns.
  induction lines as [|line lines IH]; intros rows is_columns; cbn [mps_lines]; [done|].
  destruct (mps_line line (rows, is_columns)) as [[[rows1 b1]|st1]|e1] eqn:Hl;
    cbn [mbind result_bind]; [|done|].
  - intros Hrest. destruct (IH _ _ Hrest) as (-> & l & c0 & token & Hin & H).
    split; [done|]. exists l, c0, token. split; [by right | done].
  - intros [= <-]. destruct (mps_line_raises _ _ _ _ Hl) as (-> & c0 & token & H).
    split; [done|]. exists line, c0, token. split; [left | done].
Qed.

(** Every row of the dict holds a column, since a row is entered when
    its first column is appended. *)
Lemma extend_row_nonempty rows row cols :
  Forall (fun kv => kv.2 ≠ []) rows → Forall (fun kv => kv.2 ≠ []) (extend_row rows row cols).
Proof.
  intros Hall. unfold extend_row. destruct cols as [|col cols]; [done|].
  generalize (default [] (dict_get rows row) ++ col :: cols) (app_cons_not_nil
    (default [] (dict_get rows row)) cols col). intros v Hv.
  assert (v ≠ []) as Hv' by done. clear Hv.
  induction Hall as [|[k' v'] d Hkv Hd IH]; simpl.
  - by constructor.
  - destruct (decide (row = k')); by constructor.
Qed.

Lemma mps_entries_nonempty content row rows indices rows' :
  mps_entries content row rows indices = Ok rows' →
  Forall (fun kv => kv.2 ≠ []) rows → Forall (fun kv => kv.2 ≠ []) rows'.
Proof.
  revert rows. induction indices as [|i indices IH]; intros rows; cbn [mps_entries].
  { by intros [= ->]. }
  destruct (content !! i) as [x|] eqn:Hi.
  - rewrite (mps_entry_spec content row rows i x Hi). cbn [mbind result_bind].
    intros He Hall. eapply IH; [exact He|]. by apply extend_row_nonempty.
  - unfold mps_entry, item. by rewrite Hi.
Qed.

Lemma mps_line_nonempty line rows is_columns f :
  mps_line line (rows, is_columns) = Ok f →
  Forall (fun kv => kv.2 ≠ []) rows → Forall (fun kv => kv.2 ≠ []) (state_of f).1.
Proof.
  unfold mps_line.
  destruct (startswith "COLUMNS" line); [by intros [= <-]|].
  destruct (negb is_columns); [by intros [= <-]|].
  destruct (len (strip line) =? 0); [by intros [= <-]|].
  destruct (first line) as [c0|]; [|done]. cbn [mbind result_bind].
  destruct (negb (isspace c0)); [by intros [= <-]|].
  destruct (item _ 1) as [c1|]; [|done]. cbn [mbind result_bind].
  destruct (contains "MARKER" c1); [by intros [= <-]|].
  destruct (item _ 0) as [row|]; [|done]. cbn [mbind result_bind].
  destruct (mps_entries _ row rows _) as [rows'|] eqn:He; [|done].
  cbn [mbind result_bind]. intros [= <-]. simpl.
  by eapply mps_entries_nonempty.
Qed.

Lemma mps_lines_nonempty lines rows is_columns f :
  mps_lines lines (rows, is_columns) = Ok f →
  Forall (fun kv => kv.2 ≠ []) rows → Forall (fun kv => kv.2 ≠ []) (state_of f).1.
Proof.
  revert rows is_columns.
  induction lines as [|line lines IH]; intros rows is_columns; cbn [mps_lines].
  { by intros [= <-]. }
  destruct (mps_line line (rows, is_columns)) as [[[rows1 b1]|[rows1 b1]]|] eqn:Hl;
    [| |done]; cbn [mbind result_bind]; intros Hrest Hall.
  - eapply IH; [exact Hrest|]. by apply (mps_line_nonempty _ _ _ _ Hl).
  - injection Hrest as <-. by apply (mps_line_nonempty _ _ _ _ Hl).
Qed.
End mps_more_facts.

(** X11. [read_mps] ignores everything before the COLUMNS line: lines
    that do not start with COLUMNS can be put in front of the input without
    changing the result. *)
Theorem read_mps_skips_to_columns (pre rest : list string) :
  Forall (fun line => startswith "COLUMNS" line = false) pre →
  read_mps (pre ++ rest) = read_mps rest.
Proof.
  intros Hpre. unfold read_mps. rewrite mps_lines_app.
  assert (mps_lines pre ([], false) = Ok (Next ([], false))) as ->
    by apply (mps_lines_before_columns pre [] Hpre).
  done.
Qed.

Lemma read_mps_skips_to_columns_witness :
  read_mps (["NAME example" +:+ nl; "ROWS" +:+ nl; " N COST" +:+ nl]
              ++ ["COLUMNS" +:+ nl; "    X COST 1 LIM 2" +:+ nl])
  = read_mps ["COLUMNS" +:+ nl; "    X COST 1 LIM 2" +:+ nl].
Proof.
  apply (read_mps_skips_to_columns
           ["NAME example" +:+ nl; "ROWS" +:+ nl; " N COST" +:+ nl]
           ["COLUMNS" +:+ nl; "    X COST 1 LIM 2" +:+ nl]).
  repeat constructor.
Defined.

(** X12. Inside the COLUMNS section, the first line that is not indented
    (and does not start with COLUMNS) ends the reading: the model is made of
    the rows read so far, and the lines after it are never looked at, not
    even a line that would raise. *)
Theorem read_mps_stops_at_next_section
    (pre post : list string) (line : string) (c0 : ascii)
    (rows : dict string (list string)) :
  mps_lines pre ([], false) = Ok (Next (rows, true)) →
  first line = Ok c0 → isspace c0 = false → startswith "COLUMNS" line = false →
  read_mps (pre ++ line :: post) = Ok (model_of_rows rows).
Proof.
  intros Hpre Hf Hsp Hc. rewrite (read_mps_from pre _ rows Hpre).
  cbn [mps_lines]. by rewrite (mps_line_break line c0 rows Hf Hsp Hc).
Qed.

Lemma read_mps_stops_at_next_section_witness :
  read_mps (["COLUMNS" +:+ nl; "    X COST 1 LIM 2" +:+ nl]
              ++ ("RHS" +:+ nl) :: ["    RHS" +:+ nl])
  = Ok (model_of_rows [("X", ["COST"; "LIM"])]).
Proof.
  apply (read_mps_stops_at_next_section
           ["COLUMNS" +:+ nl; "    X COST 1 LIM 2" +:+ nl] ["    RHS" +:+ nl]
           ("RHS" +:+ nl) "R"%char).
  - reflexivity.
  - reflexivity.
  - reflexivity.
  - reflexivity.
Defined.

(** X13. [read_mps] raises nothing but [IndexError], and raises it only
    when the input has an indented line that holds a single token; an input
    without such a line is always read. *)
Theorem read_mps_raises_only_index_error (lines : list string) :
  (∀ e, read_mps lines = Raise e →
     e = IndexError
     ∧ ∃ line c0 token,
         line ∈ lines ∧ first line = Ok c0 ∧ isspace c0 = true ∧ split line = [token])
  ∧ (Forall (fun line => length (split line) ≠ 1) lines → ∃ m, read_mps lines = Ok m).
Proof.
  assert (∀ e, read_mps lines = Raise e →
     e = IndexError
     ∧ ∃ line c0 token,
         line ∈ lines ∧ first line = Ok c0 ∧ isspace c0 = true ∧ split line = [token])
    as Hraise.
  { intros e. unfold read_mps.
    destruct (mps_lines lines ([], false)) as [f|e'] eqn:Hl; [done|].
    cbn [mbind result_bind]. intros [= <-]. by eapply mps_lines_raises. }
  split; [exact Hraise|].
  intros Hall. destruct (read_mps lines) as [m|e] eqn:Hr; [by exists m|].
  destruct (Hraise e eq_refl) as (_ & line & c0 & token & Hin & _ & _ & Hsplit).
  rewrite Forall_forall in Hall. specialize (Hall line Hin). by rewrite Hsplit in Hall.
Qed.

(** X14. The columns of lines that name the same row accumulate into one
    constraint, in the order met; lines that name different rows give one
    constraint each, in the order in which the rows first appear. *)
Theorem read_mps_rows_accumulate
    (header line1 line2 row1 row2 t1 t2 : string) (rest1 rest2 : list string)
    (c1 c2 : ascii) :
  startswith "COLUMNS" header = true →
  first line1 = Ok c1 → isspace c1 = true → split line1 = row1 :: t1 :: rest1 →
  first line2 = Ok c2 → isspace c2 = true → split line2 = row2 :: t2 :: rest2 →
  contains "MARKER" t1 = false → contains "MARKER" t2 = false →
  ∃ m, read_mps [header; line1; line2] = Ok m
    ∧ relations m =
        if decide (row2 = row1)
        then [pair_variables (t1 :: rest1) ++ pair_variables (t2 :: rest2)]
        else [pair_variables (t1 :: rest1); pair_variables (t2 :: rest2)].
Proof.
  intros Hhdr Hf1 Hsp1 Hs1 Hf2 Hsp2 Hs2 Hm1 Hm2.
  unfold read_mps. cbn [mps_lines].
  assert (mps_line header ([], false) = Ok (Next ([], true))) as ->.
  { unfold mps_line. by rewrite Hhdr. }
  cbn [mbind result_bind].
  assert (mps_line line1 ([], true)
          = Ok (Next (extend_row [] row1 (pair_variables (t1 :: rest1)), true))) as ->.
  { apply (mps_line_data line1 c1 row1 (t1 :: rest1) [] Hf1 Hsp1 Hs1). by exists t1. }
  cbn [mbind result_bind].
  rewrite (mps_line_data line2 c2 row2 (t2 :: rest2) _ Hf2 Hsp2 Hs2)
    by by exists t2.
  cbn [mbind result_bind state_of fst].
  eexists. split; [done|]. rewrite model_of_rows_relations.
  cbn [pair_variables extend_row dict_get dict_set default app].
  destruct (decide (row2 = row1)) as [->|Hne].
  - cbn [dict_set]. destruct (decide (row1 = row1)); [|done]. done.
  - cbn [dict_set]. destruct (decide (row2 = row1)); [done|]. done.
Qed.

Lemma read_mps_rows_accumulate_witness :
  ∃ m, read_mps ["COLUMNS" +:+ nl; "    X COST 1 LIM1 1" +:+ nl; "    X LIM2 1" +:+ nl]
       = Ok m
    ∧ relations m =
        if decide ("X" = "X")
        then [pair_variables ["COST"; "1"; "LIM1"; "1"] ++ pair_variables ["LIM2"; "1"]]
        else [pair_variables ["COST"; "1"; "LIM1"; "1"]; pair_variables ["LIM2"; "1"]].
Proof.
  apply (read_mps_rows_accumulate ("COLUMNS" +:+ nl) ("    X COST 1 LIM1 1" +:+ nl)
           ("    X LIM2 1" +:+ nl) "X" "X" "COST" "LIM2" ["1"; "LIM1"; "1"] ["1"]
           " "%char " "%char).
  - reflexivity.
  - reflexivity.
  - reflexivity.
  - vm_compute. reflexivity.
  - reflexivity.
  - reflexivity.
  - vm_compute. reflexivity.
  - vm_compute. reflexivity.
  - vm_compute. reflexivity.
Defined.

(** X15. The constraints of the model that [read_mps] returns are the
    lists of the rows of its dict, one constraint per row name, and none of
    them is empty. *)
Theorem read_mps_constraints (lines : list string) (m : Model) :
  read_mps lines = Ok m →
  ∃ f, mps_lines lines ([], false) = Ok f
    ∧ relations m = dict_values (state_of f).1
    ∧ length (constraints m) = length (dict_keys (state_of f).1)
    ∧ Forall (fun ids => ids ≠ []) (relations m).
Proof.
  unfold read_mps.
  destruct (mps_lines lines ([], false)) as [f|e] eqn:Hl; [|done].
  cbn [mbind result_bind]. intros [= <-]. exists f. split; [done|].
  pose proof (model_of_rows_relations (state_of f).1) as Hrel.
  split; [done|]. split.
  - unfold relations in Hrel. apply (f_equal length) in Hrel.
    unfold dict_values, dict_keys in *. by rewrite !length_fmap in *.
  - rewrite Hrel. pose proof (mps_lines_nonempty lines [] false f Hl) as Hne.
    unfold dict_values. apply Forall_fmap. eapply Forall_impl; [by apply Hne|].
    by intros [k v].
Qed.

Lemma read_mps_constraints_witness :
  ∃ f, mps_lines ["COLUMNS" +:+ nl; "    X COST 1 LIM1 1" +:+ nl; "    Y LIM1 1" +:+ nl]
         ([], false) = Ok f
    ∧ relations (model_of_rows [("X", ["COST"; "LIM1"]); ("Y", ["LIM1"])])
      = dict_values (state_of f).1
    ∧ length (constraints (model_of_rows [("X", ["COST"; "LIM1"]); ("Y", ["LIM1"])]))
      = length (dict_keys (state_of f).1)
    ∧ Forall (fun ids => ids ≠ [])
        (relations (model_of_rows [("X", ["COST"; "LIM1"]); ("Y", ["LIM1"])])).
Proof.
  apply (read_mps_constraints
           ["COLUMNS" +:+ nl; "    X COST 1 LIM1 1" +:+ nl; "    Y LIM1 1" +:+ nl]).
  reflexivity.
Defined.

(** ** The graph: edges and weights *)

Section edge_facts.
Implicit Types (ids : list string) (edge : string * string).
Implicit Types (d : dict (string * string) nat).

Lemma dict_get_Some_entry {K V} `{EqDecision K} (t : dict K V) k v :
  dict_get t k = Some v → (k, v) ∈ t.
Proof.
  induction t as [|[k' v'] t IH]; simpl; [done|].
  destruct (decide (k = k')) as [->|Hne].
  - intros [= ->]. left.
  - intros Hg. right. by apply IH.
Qed.

Lemma count_edges_keys_NoDup d (es : list (string * string)) :
  NoDup (dict_keys d) → NoDup (dict_keys (foldl count_edge d es)).
Proof.
  revert d. induction es as [|e es IH]; intros d Hnd; simpl; [done|].
  apply IH. rewrite count_edge_set. by apply dict_set_keys_NoDup.
Qed.

Lemma constraints_edges_keys_NoDup d (rs : list (list string)) :
  NoDup (dict_keys d) → NoDup (dict_keys (foldl constraint_edges d rs)).
Proof.
  revert d. induction rs as [|ids rs IH]; intros d Hnd; simpl; [done|].
  apply IH. rewrite constraint_edges_visited. by apply count_edges_keys_NoDup.
Qed.

Lemma model_edges_keys_NoDup m : NoDup (dict_keys (model_edges m)).
Proof. apply constraints_edges_keys_NoDup, NoDup_nil_2. Qed.

(** The counter of an edge after a run of lines 211-214. *)
Lemma count_edges_get d (es : list (string * string)) edge :
  dict_get (foldl count_edge d es) edge
  = match occurrences edge es with
    | 0 => dict_get d edge
    | S n => Some (default 0 (dict_get d edge) + S n)
    end.
Proof.
  revert d. induction es as [|e es IH]; intros d; simpl; [done|].
  rewrite IH, occurrences_cons, count_edge_set, dict_get_set.
  destruct (decide (e = edge)) as [->|Hne].
  - destruct (decide (edge = edge)); [|done]. simpl.
    destruct (occurrences edge es); simpl; f_equal; lia.
  - destruct (decide (edge = e)); [congruence|]. done.
Qed.

Lemma constraints_edges_get d (rs : list (list string)) edge :
  dict_get (foldl constraint_edges d rs) edge
  = match occurrences edge (rs ≫= visited) with
    | 0 => dict_get d edge
    | S n => Some (default 0 (dict_get d edge) + S n)
    end.
Proof.
  revert d. induction rs as [|ids rs IH]; intros d; csimpl; [done|].
  rewrite IH, constraint_edges_visited, occurrences_app, count_edges_get.
  destruct (occurrences edge (visited ids)) as [|n];
    destruct (occurrences edge (rs ≫= visited)) as [|k]; simpl; try done;
    f_equal; lia.
Qed.

Lemma model_edges_get m edge :
  dict_get (model_edges m) edge
  = match occurrences edge (relations m ≫= visited) with
    | 0 => None
    | S n => Some (S n)
    end.
Proof. unfold model_edges. rewrite constraints_edges_get. by destruct (occurrences _ _). Qed.

Lemma model_edges_entry m edge n :
  (edge, n) ∈ model_edges m ↔
    0 < n ∧ n = occurrences edge (relations m ≫= visited).
Proof.
  split.
  - intros Hin. apply dict_get_entry in Hin; [|apply model_edges_keys_NoDup].
    rewrite model_edges_get in Hin.
    destruct (occurrences edge (relations m ≫= visited)); [done|].
    injection Hin as <-. split; [lia | done].
  - intros [Hpos ->]. apply dict_get_Some_entry. rewrite model_edges_get.
    by destruct (occurrences edge (relations m ≫= visited)); [lia|].
Qed.

(** The ids of the constraints of a built model are ids of [variables]. *)
Lemma built_relation_ids m ids i :
  built m → ids ∈ relations m → i ∈ ids → i ∈ dict_keys (variables m).
Proof.
  intros Hb Hids Hi. destruct (built_invariant m Hb) as [_ Hr].
  unfold relations in Hids. apply list_elem_of_fmap in Hids as (c & -> & Hc).
  destruct (Hr c Hc) as (k & Hk & Hall).
  unfold constraint_ids, variables_at in Hi. rewrite Hk in Hi.
  apply list_elem_of_fmap in Hi as (r & -> & Hin).
  rewrite Forall_forall in Hall. destruct (Hall r Hin) as (j & Hp & Hd).
  rewrite (points_to_id_at m r j Hp). by eapply dict_get_Some_keys.
Qed.

Lemma edge_of_in a b u v : edge_of a b = (u, v) → (u = a ∨ u = b) ∧ (v = a ∨ v = b).
Proof. unfold edge_of. destruct (String.ltb a b); intros [= <- <-]; auto. Qed.
End edge_facts.

(** X16. The graph has at most one edge per pair of ids: no two entries
    of the edge list have the same two endpoints, and since the smaller id
    comes first, no pair appears in both orders. *)
Theorem plot_graph_edges_unique (m : Model) (weighted : bool) :
  NoDup ((fun e : string * string * nat => e.1) <$> edges (plot_graph m weighted))
  ∧ (∀ u v w w', (u, v, w) ∈ edges (plot_graph m weighted) →
       (v, u, w') ∈ edges (plot_graph m weighted) → u = v).
Proof.
  split.
  - unfold plot_graph. cbn [edges]. rewrite <- list_fmap_compose.
    pose proof (model_edges_keys_NoDup m) as Hnd. unfold dict_keys in Hnd.
    erewrite Forall_fmap_ext_1; [exact Hnd|].
    apply Forall_forall. by intros [[u v] n] _.
  - intros u v w w' H1 H2.
    assert ((u, v) ∈ dict_keys (model_edges m)) as K1
      by (apply (plot_graph_edges m weighted); by exists w).
    assert ((v, u) ∈ dict_keys (model_edges m)) as K2
      by (apply (plot_graph_edges m weighted); by exists w').
    apply model_edges_keys in K1 as (ids1 & _ & V1).
    apply model_edges_keys in K2 as (ids2 & _ & V2).
    apply visited_iff in V1 as (? & ? & a1 & b1 & _ & _ & _ & E1).
    apply visited_iff in V2 as (? & ? & a2 & b2 & _ & _ & _ & E2).
    symmetry in E1, E2.
    apply edge_of_ordered in E1, E2. unfold String.ltb in *.
    rewrite String.compare_antisym in E1.
    destruct (String.compare u v) eqn:Hc; simpl in *; try done.
    by apply String.compare_eq_iff.
Qed.

(** X17. The weight of an edge is the number of pairs of positions i < j,
    over all constraints, whose ids are its two endpoints: in weighted mode
    an edge is in the graph with exactly that number as weight, so a
    constraint that lists an id twice counts its pairs twice; in unweighted
    mode the same edges are there with weight 1. *)
Theorem plot_graph_weights (m : Model) (u v : string) (w : nat) :
  ((u, v, w) ∈ edges (plot_graph m true)
     ↔ 0 < w ∧ w = occurrences (u, v) (relations m ≫= visited))
  ∧ ((u, v, w) ∈ edges (plot_graph m false)
     ↔ w = 1 ∧ 0 < occurrences (u, v) (relations m ≫= visited)).
Proof.
  unfold plot_graph. cbn [edges]. split.
  - rewrite <- model_edges_entry. split.
    + intros Hin. by apply list_elem_of_fmap in Hin as ([[u' v'] n] & [= -> -> ->] & Hin).
    + intros Hin. apply list_elem_of_fmap. by exists (u, v, w).
  - split.
    + intros Hin. apply list_elem_of_fmap in Hin as ([[u' v'] n] & [= -> -> ->] & Hin).
      apply model_edges_entry in Hin as [Hpos <-]. done.
    + intros [-> Hpos]. apply list_elem_of_fmap.
      exists (u, v, occurrences (u, v) (relations m ≫= visited)).
      split; [done|]. by apply model_edges_entry.
Qed.

(** X18. For a model built by the two methods, both endpoints of every
    edge are nodes of the graph, so adding the edges adds no node. *)
Theorem plot_graph_edges_join_nodes (m : Model) (weighted : bool) (u v : string) (w : nat) :
  built m →
  (u, v, w) ∈ edges (plot_graph m weighted) →
  u ∈ nodes (plot_graph m weighted) ∧ v ∈ nodes (plot_graph m weighted).
Proof.
  intros Hb Hin.
  assert ((u, v) ∈ dict_keys (model_edges m)) as Hk
    by (apply (plot_graph_edges m weighted); by exists w).
  apply model_edges_keys in Hk as (ids & Hids & Hv).
  apply visited_iff in Hv as (i & j & a & b & _ & Ha & Hb' & He).
  symmetry in He. apply edge_of_in in He as [Hu Hv].
  assert (a ∈ dict_keys (variables m)) as Hain.
  { apply (built_relation_ids m ids a Hb Hids). by eapply list_elem_of_lookup_2. }
  assert (b ∈ dict_keys (variables m)) as Hbin.
  { apply (built_relation_ids m ids b Hb Hids). by eapply list_elem_of_lookup_2. }
  unfold plot_graph. cbn [nodes]. rewrite (built_values_ids m Hb).
  split; [by destruct Hu as [-> | ->] | by destruct Hv as [-> | ->]].
Qed.

Lemma plot_graph_edges_join_nodes_witness :
  "x" ∈ nodes (plot_graph (create_constraint_relation ["y"; "x"] new_model) true)
  ∧ "y" ∈ nodes (plot_graph (create_constraint_relation ["y"; "x"] new_model) true).
Proof.
  apply (plot_graph_edges_join_nodes
           (create_constraint_relation ["y"; "x"] new_model) true "x" "y" 1).
  - apply built_relation, built_new.
  - vm_compute. left.
Defined.

(** ** File names: the opener, the reader and the output name *)

Section name_facts.
Implicit Types (s a b suffix sub : string) (c : ascii).

Lemma app_cons c a b : String c a +:+ b = String c (a +:+ b).
Proof. done. Qed.

Lemma app_nil_l b : EmptyString +:+ b = b.
Proof. done. Qed.

Lemma app_assoc_str a b1 b2 : (a +:+ b1) +:+ b2 = a +:+ (b1 +:+ b2).
Proof. induction a as [|c a IH]; [done|]. by rewrite !app_cons, IH. Qed.

Lemma len_app a b : len (a +:+ b) = len a + len b.
Proof. induction a as [|c a IH]; [done|]. rewrite app_cons. simpl. by rewrite IH. Qed.

Lemma slice_to_app a b : slice_to (len a) (a +:+ b) = a.
Proof.
  induction a as [|c a IH]; [by destruct b|]. rewrite app_cons. simpl. by rewrite IH.
Qed.

Lemma slice_from_app a b : slice_from (len a) (a +:+ b) = b.
Proof. induction a as [|c a IH]; [by destruct b|]. by rewrite app_cons. Qed.

Lemma slice_join k s : slice_to k s +:+ slice_from k s = s.
Proof.
  revert k. induction s as [|c s IH]; intros [|k]; try done.
  simpl. by rewrite app_cons, IH.
Qed.

Lemma len_slice_to k s : k ≤ len s → len (slice_to k s) = k.
Proof.
  revert k. induction s as [|c s IH]; intros [|k]; simpl; try done; try lia.
  intros Hk. rewrite IH; [done | lia].
Qed.

(** [endswith] holds of the strings that end in the suffix. *)
Lemma endswith_iff suffix s : endswith suffix s = true ↔ ∃ a, s = a +:+ suffix.
Proof.
  unfold endswith. rewrite andb_true_iff, Nat.leb_le, String.eqb_eq. split.
  - intros [Hlen Hs]. exists (slice_to (len s - len suffix) s).
    set (k := len s - len suffix) in *. rewrite <- Hs. by rewrite slice_join.
  - intros [a ->]. rewrite len_app. split; [lia|].
    replace (len a + len suffix - len suffix) with (len a) by lia.
    apply slice_from_app.
Qed.

Lemma endswith_longer a suffix s :
  endswith (a +:+ suffix) s = true → endswith suffix s = true.
Proof.
  rewrite !endswith_iff. intros [b ->]. exists (b +:+ a). by rewrite app_assoc_str.
Qed.

(** *** The last occurrence *)

Lemma rfind_app_Some sub a b k :
  rfind sub b = Some k → rfind sub (a +:+ b) = Some (len a + k).
Proof.
  intros Hb. induction a as [|c a IH]; [done|].
  rewrite app_cons. simpl. by rewrite IH.
Qed.

Lemma rfind_char_None c s : c ∉ chars s → rfind (String c EmptyString) s = None.
Proof.
  induction s as [|x s IH]; simpl; [done|].
  rewrite not_elem_of_cons. intros [Hne Hnin]. rewrite (IH Hnin).
  destruct (ascii_dec c x); [congruence | done].
Qed.

Lemma rfind_char_last c a b :
  c ∉ chars b → rfind (String c EmptyString) (a +:+ String c b) = Some (len a).
Proof.
  intros Hb. rewrite (rfind_app_Some _ a _ 0); [f_equal; lia|].
  simpl. rewrite (rfind_char_None c b Hb).
  destruct (ascii_dec c c); [by destruct b | done].
Qed.

End name_facts.

(** X19. The readers never open their file with [tarfile]: a name that
    ends in [.tar.gz] ends in [.gz], so the test of line 83 (and 142) takes
    it first and the branch of lines 85-87 (144-146) is never reached. *)
Theorem open_file_never_tarfile (file : string) :
  open_file file = (if endswith ".gz" file then gzip_open else plain_open)
  ∧ open_file file ≠ tarfile_open.
Proof.
  unfold open_file. destruct (endswith ".gz" file) eqn:Hgz; [done|].
  destruct (endswith ".tar.gz" file) eqn:Htar; [|done].
  apply (endswith_longer ".tar" ".gz" file) in Htar. congruence.
Qed.

(** X20. Without an output argument the figure goes to the input name
    with its last extension replaced by [.png] (only the part after the last
    dot goes, so [model.lp.gz] gives [model.lp.png]); with an output
    argument it goes to that name. *)
Theorem output_name_replaces_extension (stem ext output : string) :
  "."%char ∉ chars ext →
  output_name (stem +:+ "." +:+ ext) output
  = Ok (if decide (output = EmptyString) then stem +:+ ".png" else output).
Proof.
  intros Hext. unfold output_name, rindex.
  change ("." +:+ ext) with (String "."%char ext).
  rewrite (rfind_char_last "."%char stem ext Hext). cbn [mbind result_bind].
  rewrite slice_to_app.
  destruct (decide (output = EmptyString)) as [->|Hne].
  - by rewrite bool_decide_eq_false_2 by (intros H; by apply H).
  - by rewrite bool_decide_eq_true_2.
Qed.

Lemma output_name_replaces_extension_witness :
  output_name ("dir/model.lp" +:+ "." +:+ "gz") ""
  = Ok (if decide ("" = EmptyString) then "dir/model.lp" +:+ ".png" else "").
Proof.
  apply (output_name_replaces_extension "dir/model.lp" "gz" "").
  vm_compute. intros H. repeat (inversion H as [|? ? ? H']; subst; clear H; rename H' into H).
Defined.


(** ** The LP reader: labels, comments and single pass *)

Section lp_row_facts.
Implicit Types (s a b label body comment : string) (c : ascii) (m : Model).

Lemma find_char_None c s : c ∉ chars s → find (String c EmptyString) s = None.
Proof.
  induction s as [|x s IH]; simpl; [done|].
  rewrite not_elem_of_cons. intros [Hne Hnin]. rewrite (IH Hnin).
  destruct (ascii_dec c x); [congruence | done].
Qed.

Lemma find_char_first c a b :
  c ∉ chars a → find (String c EmptyString) (a +:+ String c b) = Some (len a).
Proof.
  induction a as [|x a IH].
  - intros _. rewrite app_nil_l. simpl.
    destruct (ascii_dec c c); [by destruct b | done].
  - simpl chars. rewrite not_elem_of_cons. intros [Hne Hnin].
    rewrite app_cons. simpl. rewrite (IH Hnin).
    destruct (ascii_dec c x); [congruence | done].
Qed.

Lemma slice_from_after a c b : slice_from (len a + 1) (a +:+ String c b) = b.
Proof. induction a as [|x a IH]; [done|]. by rewrite app_cons. Qed.

Lemma chars_app a b : chars (a +:+ b) = chars a ++ chars b.
Proof. induction a as [|x a IH]; [done|]. rewrite app_cons. simpl. by rewrite IH. Qed.

(** A turn of the loop only adds relations, after those that are there. *)
Lemma lp_line_extends line m cur m' cur' :
  lp_line line (m, cur) = Ok (m', cur') → built m →
  built m' ∧ ∃ more, relations m' = relations m ++ more.
Proof.
  unfold lp_line.
  assert (built m → built m ∧ ∃ more, relations m = relations m ++ more) as Hsame.
  { intros Hb. split; [done|]. exists []. by rewrite app_nil_r. }
  destruct (startswith backslash line); [by intros [= <- <-]|].
  destruct (len (lower (strip line)) =? 0); [by intros [= <- <-]|].
  destruct (first line) as [c0|]; [|done]. cbn [mbind result_bind].
  destruct (isalpha c0).
  { repeat case_bool_decide; by intros [= <- <-]. }
  destruct cur as [sec|]; [|by intros [= <- <-]].
  destruct (lp_variables (lower (strip line))) as [vs|] eqn:Hvs; [|done].
  cbn [mbind result_bind].
  destruct (0 <? length vs) eqn:Hlen; [|by intros [= <- <-]].
  intros [= <- <-] Hb. split; [by apply built_relation|].
  exists [vs]. by apply create_constraint_relation_relations.
Qed.

Lemma lp_lines_extends lines m cur m' cur' :
  lp_lines lines (m, cur) = Ok (m', cur') → built m →
  built m' ∧ ∃ more, relations m' = relations m ++ more.
Proof.
  revert m cur. induction lines as [|line lines IH]; intros m cur; cbn [lp_lines].
  { intros [= <- <-] Hb. split; [done|]. exists []. by rewrite app_nil_r. }
  destruct (lp_line line (m, cur)) as [[m1 cur1]|] eqn:Hl; [|done].
  cbn [mbind result_bind]. intros Hrest Hb.
  destruct (lp_line_extends _ _ _ _ _ Hl Hb) as (Hb1 & more1 & Hm1).
  destruct (IH _ _ Hrest Hb1) as (Hb' & more & Hm').
  split; [done|]. exists (more1 ++ more). by rewrite Hm', Hm1, app_assoc.
Qed.
End lp_row_facts.

(** X22. The name of a row and its trailing comment name no variable:
    on a row [label: body \ comment], where the label has no colon and label
    and body have no backslash, the variables are the tokens of the body that
    pass [is_variable]; the same holds of a row without a comment. *)
Theorem lp_variables_label_and_comment (label body comment : string) :
  ":"%char ∉ chars label →
  ascii_of_nat 92 ∉ chars (label +:+ ":" +:+ body) →
  lp_variables (label +:+ ":" +:+ body +:+ backslash +:+ comment)
  = Ok (filter (fun w => is_variable w = true) (split body))
  ∧ lp_variables (label +:+ ":" +:+ body)
    = Ok (filter (fun w => is_variable w = true) (split body)).
Proof.
  intros Hlabel Hbs.
  assert (contains ":" (label +:+ ":" +:+ body) = true
          ∧ index ":" (label +:+ ":" +:+ body) = Ok (len label)) as [Hc Hi].
  { unfold contains, index. change (":" +:+ body) with (String ":"%char body).
    by rewrite (find_char_first ":"%char label body Hlabel). }
  split.
  - replace (label +:+ ":" +:+ body +:+ backslash +:+ comment)
      with ((label +:+ ":" +:+ body) +:+ String (ascii_of_nat 92) comment)
      by by rewrite !app_assoc_str.
    assert (contains backslash
              ((label +:+ ":" +:+ body) +:+ String (ascii_of_nat 92) comment) = true
            ∧ index backslash
                ((label +:+ ":" +:+ body) +:+ String (ascii_of_nat 92) comment)
              = Ok (len (label +:+ ":" +:+ body))) as [Hbc Hbi].
    { unfold contains, index, backslash. by rewrite (find_char_first _ _ comment Hbs). }
    unfold lp_variables. rewrite Hbc, Hbi. cbn [mbind result_bind].
    rewrite slice_to_app, Hc, Hi. cbn [mbind result_bind].
    change (":" +:+ body) with (String ":"%char body).
    by rewrite slice_from_after.
  - assert (contains backslash (label +:+ ":" +:+ body) = false) as Hbc.
    { unfold contains, backslash. by rewrite (find_char_None _ _ Hbs). }
    unfold lp_variables. rewrite Hbc. cbn [mbind result_bind].
    rewrite Hc, Hi. cbn [mbind result_bind].
    change (":" +:+ body) with (String ":"%char body).
    by rewrite slice_from_after.
Qed.

Lemma lp_variables_label_and_comment_witness :
  lp_variables ("x1" +:+ ":" +:+ " x + 2 y >= 1 " +:+ backslash +:+ " at least z")
  = Ok (filter (fun w => is_variable w = true) (split " x + 2 y >= 1 "))
  ∧ lp_variables ("x1" +:+ ":" +:+ " x + 2 y >= 1 ")
    = Ok (filter (fun w => is_variable w = true) (split " x + 2 y >= 1 ")).
Proof.
  apply (lp_variables_label_and_comment "x1" " x + 2 y >= 1 " " at least z").
  - apply (bool_decide_eq_false_1 (_ ∈ _)). vm_compute. reflexivity.
  - apply (bool_decide_eq_false_1 (_ ∈ _)). vm_compute. reflexivity.
Defined.

(** X23. [read_lp] works in a single pass: the constraints read from the
    first lines of a file stay, in their order, at the front of the
    constraints read from the whole file. *)
Theorem read_lp_prefix (pre post : list string) (m0 : Model) :
  read_lp pre = Ok m0 →
  ∃ m more, read_lp (pre ++ post) = Ok m ∧ relations m = relations m0 ++ more.
Proof.
  intros Hpre. destruct (read_lp_total pre) as (m0' & Hpre' & Hb).
  rewrite Hpre in Hpre'. injection Hpre' as <-.
  unfold read_lp in *. rewrite lp_lines_app.
  destruct (lp_lines pre (new_model, None)) as [[m1 cur]|]; [|done].
  cbn [mbind result_bind fst] in Hpre. injection Hpre as ->.
  cbn [mbind result_bind].
  destruct (lp_lines_total post m0 cur) as (m & cur' & Hpost & _).
  rewrite Hpost. cbn [mbind result_bind fst].
  destruct (lp_lines_extends post m0 cur m cur' Hpost Hb) as (_ & more & Hm).
  by exists m, more.
Qed.

Lemma read_lp_prefix_witness :
  ∃ m more,
    read_lp (["st" +:+ nl; " x + y <= 1" +:+ nl] ++ [" y + z <= 2" +:+ nl]) = Ok m
    ∧ relations m = relations (create_constraint_relation ["x"; "y"] new_model) ++ more.
Proof.
  apply (read_lp_prefix ["st" +:+ nl; " x + y <= 1" +:+ nl] [" y + z <= 2" +:+ nl]
           (create_constraint_relation ["x"; "y"] new_model)).
  reflexivity.
Defined.

(** X24. Registering one more relation in a built model adds to the
    counter of each edge the number of times the two loops of [plot] meet
    that edge in the new relation, and changes no other counter. *)
Theorem model_edges_after_relation (ids : list string) (m : Model) (edge : string * string) :
  built m →
  default 0 (dict_get (model_edges (create_constraint_relation ids m)) edge)
  = default 0 (dict_get (model_edges m) edge) + occurrences edge (visited ids).
Proof.
  intros Hb. rewrite !model_edges_get.
  rewrite (create_constraint_relation_relations ids m Hb), bind_app, occurrences_app.
  csimpl. rewrite app_nil_r.
  destruct (occurrences edge (relations m ≫= visited));
    destruct (occurrences edge (visited ids)); simpl; lia.
Qed.

Lemma model_edges_after_relation_witness :
  default 0 (dict_get (model_edges (create_constraint_relation ["x"; "y"; "x"]
                                      (create_constraint_relation ["y"; "x"] new_model)))
               ("x", "y"))
  = default 0 (dict_get (model_edges (create_constraint_relation ["y"; "x"] new_model))
                 ("x", "y"))
    + occurrences ("x", "y") (visited ["x"; "y"; "x"]).
Proof.
  apply (model_edges_after_relation ["x"; "y"; "x"]
           (create_constraint_relation ["y"; "x"] new_model) ("x", "y")).
  apply built_relation, built_new.
Defined.
